(** * Live chat stream (chat-stream.mjs): capture core of the mobile bridge

    A shallow embedding of [src/chat-stream.mjs]: the fingerprint
    [hashString], target discovery [findTargets], the CDP session with its
    one-slot context cache ([findCascadeContext], [captureChat]), the
    module-level streaming state with [startChatStream], [stopChatStream],
    [getChatSnapshot] and [isStreaming], and the DOM procedure that
    [captureChat] evaluates in the page. *)

From Stdlib Require Import ZArith String Ascii List Bool Lia.
From stdpp Require Import base option list gmap.
Import ListNotations.

#[local] Open Scope string_scope.
#[local] Open Scope Z_scope.
#[local] Open Scope list_scope.
#[local] Set Warnings "-clear-no-such-hyp,-register-all".

(** ** Fingerprint: [hashString] *)

Module Fingerprint.

(** A JavaScript string is a sequence of UTF-16 code units; [charCodeAt]
    reads one of them. *)
Definition jsstring : Type := list Z.

(** ToInt32: the value of a number after [<<] or [&], a signed 32-bit
    integer with wrap-around. *)
Definition to_int32 (z : Z) : Z := (z + 2 ^ 31) mod 2 ^ 32 - 2 ^ 31.

(** One turn of the loop body:
    [hash = ((hash << 5) - hash) + str.charCodeAt(i); hash = hash & hash]. *)
Definition hash_step (hash code : Z) : Z :=
  let shifted := to_int32 (Z.shiftl (to_int32 hash) 5) in
  let hash := shifted - hash + code in
  Z.land (to_int32 hash) (to_int32 hash).

(** The [for] loop over the code units, left to right, from [hash]. *)
Definition hash_loop (str : jsstring) (hash : Z) : Z :=
  fold_left hash_step str hash.

Definition digit36 (d : Z) : ascii :=
  if d <? 10 then ascii_of_nat (48 + Z.to_nat d)
  else ascii_of_nat (87 + Z.to_nat d).

(** Digits of a non-negative number in radix 36, most significant first.
    Seven digits cover every 32-bit magnitude. *)
Fixpoint radix36 (fuel : nat) (n : Z) (acc : string) : string :=
  match fuel with
  | O => acc
  | S fuel' =>
      let acc' := String (digit36 (n mod 36)) acc in
      if n / 36 =? 0 then acc' else radix36 fuel' (n / 36) acc'
  end.

(** [Number.prototype.toString(36)] on a 32-bit integer. *)
Definition toString36 (n : Z) : string :=
  if n <? 0 then String "-"%char (radix36 7 (- n) EmptyString)
  else radix36 7 n EmptyString.

Definition hashString (str : jsstring) : string :=
  toString36 (hash_loop str 0).

(** Code units of a literal written with Latin-1 characters. *)
Definition codeUnits (s : string) : jsstring :=
  map (fun c => Z.of_N (N_of_ascii c)) (list_ascii_of_string s).

End Fingerprint.

Import Fingerprint.

(** ** Target discovery: [findTargets] *)

Module Discovery.

(** The JSON values a page descriptor's fields can hold, as far as the
    filter of [findTargets] tells them apart. *)
Inductive jsval : Type :=
| JUndefined
| JNull
| JBool (b : bool)
| JNumber (n : Z)
| JString (s : string).

(** [String.prototype.includes]. *)
Fixpoint includes (s needle : string) : bool :=
  String.prefix needle s ||
  match s with
  | EmptyString => false
  | String _ rest => includes rest needle
  end.

(** [v?.includes(needle)]: [undefined] (falsy) on a nullish [v], the
    substring test on a string, and a TypeError ([None]) on a value that has
    no [includes] method. *)
Definition optIncludes (v : jsval) (needle : string) : option bool :=
  match v with
  | JUndefined | JNull => Some false
  | JString s => Some (includes s needle)
  | JBool _ | JNumber _ => None
  end.

(** [v === 'page'] *)
Definition isPage (v : jsval) : bool :=
  match v with
  | JString s => if string_dec s "page" then true else false
  | _ => false
  end.

(** One entry of [/json/list]. *)
Record Target : Type := mkTarget {
  url : jsval;
  title : jsval;
  type : jsval;
  webSocketDebuggerUrl : jsval
}.

(** [{ ...t, port }] *)
Record Tagged : Type := mkTagged {
  entry : Target;
  port : Z
}.

(** The arrow function passed to [list.filter], with the short-circuit of
    [||]; [None] when its evaluation throws. *)
Definition isWorkbench (t : Target) : option bool :=
  match optIncludes (url t) "workbench.html" with
  | None => None
  | Some true => Some true
  | Some false =>
      match optIncludes (title t) "Antigravity" with
      | None => None
      | Some true => Some true
      | Some false => Some (isPage (type t))
      end
  end.

(** [list.filter(...)]: the retained entries in list order, [None] when the
    predicate throws on some entry. *)
Fixpoint filterWorkbenches (entries : list Target) : option (list Target) :=
  match entries with
  | [] => Some []
  | t :: rest =>
      match isWorkbench t with
      | None => None
      | Some keep =>
          match filterWorkbenches rest with
          | None => None
          | Some kept => Some (if keep then t :: kept else kept)
          end
      end
  end.

(** What [fetch] followed by [res.json()] yields for one port: the request
    fails (closed port, timeout), the body is not a JSON array, or the body
    is a list of descriptors. *)
Inductive PortResponse : Type :=
| Unreachable
| NotAList
| Listing (entries : list Target).

Definition CDP_PORTS : list Z := [9222; 9000; 9001; 9002; 9003].

(** The body of the [for] loop: everything in the [try] block either runs
    to the end, pushing the tagged entries, or throws before the first
    push. *)
Definition probePort (listing : Z -> PortResponse) (targets : list Tagged) (port : Z)
  : list Tagged :=
  match listing port with
  | Listing entries =>
      match filterWorkbenches entries with
      | Some workbenches => targets ++ map (fun t => mkTagged t port) workbenches
      | None => targets
      end
  | Unreachable | NotAList => targets
  end.

Definition findTargets (listing : Z -> PortResponse) : list Tagged :=
  fold_left (probePort listing) CDP_PORTS [].

(** What one port adds to [targets]. *)
Definition probed (listing : Z -> PortResponse) (port : Z) : list Tagged :=
  probePort listing [] port.

(** *** Discovery as section 4.1 words it *)

(** The permissive heuristic, on its own: a field that is not a string
    contains nothing. *)
Definition contains (v : jsval) (needle : string) : bool :=
  match v with
  | JString s => includes s needle
  | _ => false
  end.

Definition matchesHeuristic (t : Target) : bool :=
  contains (url t) "workbench.html" || contains (title t) "Antigravity" || isPage (type t).

(** What a port contributes: nothing when it is unresponsive or does not
    answer with a list, its matching entries, tagged, otherwise. *)
Definition retained (listing : Z -> PortResponse) (port : Z) : list Tagged :=
  match listing port with
  | Listing entries => map (fun t => mkTagged t port) (List.filter matchesHeuristic entries)
  | Unreachable | NotAList => []
  end.

Definition discovery_spec (listing : Z -> PortResponse) : list Tagged :=
  flat_map (retained listing) CDP_PORTS.

(** A field as the DevTools protocol delivers it: a string, or absent. *)
Definition textual (v : jsval) : bool :=
  match v with
  | JString _ | JUndefined | JNull => true
  | JBool _ | JNumber _ => false
  end.

(** A listing in which the [url] and the [title] of every entry are
    strings or absent. *)
Definition wellTyped (listing : Z -> PortResponse) : Prop :=
  forall port entries t,
    listing port = Listing entries -> In t entries ->
    textual (url t) = true /\ textual (title t) = true.

End Discovery.

Import Discovery.

(** ** The CDP session: [connectCDP], [findCascadeContext], [captureChat] *)

Module Session.

(** What the probe script of [findCascadeContext] yields in one context:
    the evaluation is rejected (destroyed or cross-origin context, error
    payload), or it reports [found: true], or [found: false]. *)
Inductive ProbeReply : Type :=
| ProbeThrows
| ProbeFound
| ProbeMissing.

(** The value the capture script returns on success. *)
Record Chat : Type := mkChat {
  html : jsstring;
  css : jsstring;
  bodyBg : jsstring;
  bodyColor : jsstring
}.

(** What the capture script yields: the call is rejected, the value is
    missing or carries an [error] field, or it is a chat. *)
Inductive CaptureReply : Type :=
| CaptureThrows
| CaptureError
| CaptureValue (chat : Chat).

(** The page at the other end of the socket: its answer to the request
    with a given id, evaluated in a given context. *)
Record Remote : Type := mkRemote {
  replyProbe : nat -> Z -> ProbeReply;
  replyCapture : nat -> Z -> CaptureReply
}.

(** The object [connectCDP] returns: the socket, the request counter of
    [call], the tracked contexts (their ids) and the one-slot cache behind
    [getCascadeContextId] and [setCascadeContextId]. *)
Record Cdp : Type := mkCdp {
  ws : nat;
  peer : Remote;
  idCounter : nat;
  contexts : list Z;
  cascadeContextId : option Z
}.

Definition setCascadeContextId (id : option Z) (cdp : Cdp) : Cdp :=
  mkCdp (ws cdp) (peer cdp) (idCounter cdp) (contexts cdp) id.

(** [const id = idCounter++] *)
Definition takeId (cdp : Cdp) : nat * Cdp :=
  (idCounter cdp,
   mkCdp (ws cdp) (peer cdp) (S (idCounter cdp)) (contexts cdp) (cascadeContextId cdp)).

(** The two notifications the message handler tracks. *)
Inductive ContextEvent : Type :=
| ContextCreated (id : Z)
| ContextDestroyed (id : Z).

(** [contexts.splice(idx, 1)] at the first index whose id matches. *)
Fixpoint spliceFirst (id : Z) (ctxs : list Z) : list Z :=
  match ctxs with
  | [] => []
  | c :: rest => if c =? id then rest else c :: spliceFirst id rest
  end.

Definition deliver (cdp : Cdp) (ev : ContextEvent) : Cdp :=
  match ev with
  | ContextCreated id =>
      mkCdp (ws cdp) (peer cdp) (idCounter cdp) (contexts cdp ++ [id]) (cascadeContextId cdp)
  | ContextDestroyed id =>
      mkCdp (ws cdp) (peer cdp) (idCounter cdp) (spliceFirst id (contexts cdp))
        (cascadeContextId cdp)
  end.

(** A context id in a condition: [null] and [0] are falsy. *)
Definition truthy (id : option Z) : option Z :=
  match id with
  | Some i => if i =? 0 then None else Some i
  | None => None
  end.

(** [cdp.call('Runtime.evaluate', { expression: SCRIPT, ... contextId })]
    with the probe script. *)
Definition evaluateProbe (cdp : Cdp) (contextId : Z) : ProbeReply * Cdp :=
  let '(id, cdp) := takeId cdp in
  (replyProbe (peer cdp) id contextId, cdp).

(** The loop [for (const ctx of cdp.contexts)]. *)
Fixpoint searchContexts (ctxs : list Z) (cdp : Cdp) : option Z * Cdp :=
  match ctxs with
  | [] => (None, cdp)
  | ctx :: rest =>
      let '(reply, cdp) := evaluateProbe cdp ctx in
      match reply with
      | ProbeFound => (Some ctx, setCascadeContextId (Some ctx) cdp)
      | ProbeMissing | ProbeThrows => searchContexts rest cdp
      end
  end.

Definition findCascadeContext (cdp : Cdp) : option Z * Cdp :=
  match truthy (cascadeContextId cdp) with
  | Some cached =>
      let '(reply, cdp) := evaluateProbe cdp cached in
      match reply with
      | ProbeFound => (Some cached, cdp)
      | ProbeMissing => searchContexts (contexts cdp) cdp
      | ProbeThrows =>
          let cdp := setCascadeContextId None cdp in
          searchContexts (contexts cdp) cdp
      end
  | None => searchContexts (contexts cdp) cdp
  end.

(** The host side of [captureChat]: one evaluation of the capture script;
    every failure is [null]. *)
Definition captureChat (cdp : Cdp) (contextId : Z) : option Chat * Cdp :=
  let '(id, cdp) := takeId cdp in
  match replyCapture (peer cdp) id contextId with
  | CaptureValue chat => (Some chat, cdp)
  | CaptureError | CaptureThrows => (None, cdp)
  end.

End Session.

Import Session.

(** ** The module state and its four operations *)

Module Stream.

(** The consumer callback: a name to tell callbacks apart, whether a call
    with a given chat throws, and whether the value it then throws is
    [null] or [undefined] (on which reading [e.message] fails). *)
Record Callback : Type := mkCallback {
  cbName : nat;
  cbThrows : Chat -> bool;
  cbNullish : Chat -> bool
}.

(** The module-level variables [connection], [onChatUpdate],
    [pollInterval] and [lastHash], together with the resources of the
    runtime they refer to: the sockets that are open, the interval timers
    that are scheduled, and the next fresh handle. *)
Record State : Type := mkState {
  connection : option Cdp;
  onChatUpdate : option Callback;
  pollInterval : option nat;
  lastHash : option string;
  openSockets : gset nat;
  activeTimers : gset nat;
  nextHandle : nat
}.

Definition initial : State := mkState None None None None ∅ ∅ 0%nat.

Definition setConnection (c : option Cdp) (st : State) : State :=
  mkState c (onChatUpdate st) (pollInterval st) (lastHash st)
    (openSockets st) (activeTimers st) (nextHandle st).

Definition setOnChatUpdate (cb : option Callback) (st : State) : State :=
  mkState (connection st) cb (pollInterval st) (lastHash st)
    (openSockets st) (activeTimers st) (nextHandle st).

Definition setLastHash (h : option string) (st : State) : State :=
  mkState (connection st) (onChatUpdate st) (pollInterval st) h
    (openSockets st) (activeTimers st) (nextHandle st).

(** [ws.close()] *)
Definition closeSocket (h : nat) (st : State) : State :=
  mkState (connection st) (onChatUpdate st) (pollInterval st) (lastHash st)
    (openSockets st ∖ {[ h ]}) (activeTimers st) (nextHandle st).

(** [pollInterval = setInterval(poll, pollMs)] *)
Definition setInterval (st : State) : State :=
  mkState (connection st) (onChatUpdate st) (Some (nextHandle st)) (lastHash st)
    (openSockets st) (activeTimers st ∪ {[ nextHandle st ]}) (S (nextHandle st)).

(** [clearInterval(pollInterval); pollInterval = null] *)
Definition clearInterval (t : nat) (st : State) : State :=
  mkState (connection st) (onChatUpdate st) None (lastHash st)
    (openSockets st) (activeTimers st ∖ {[ t ]}) (nextHandle st).

(** What the network offers to one operation: the listing of each port and
    the outcome of dialling a debugger URL. The socket does not open and
    the first [await] of [connectCDP] throws ([DialFails]: an [error]
    event); or the socket opens and [connectCDP] throws all the same
    ([DialBreaks]: the socket opened only after the five-second timer had
    fired, or [Runtime.enable] was rejected); or [connectCDP] returns
    ([DialOpens]). *)
Inductive Dial : Type :=
| DialFails
| DialBreaks
| DialOpens (page : Remote) (announced : list Z).

Record Net : Type := mkNet {
  listing : Z -> PortResponse;
  dial : jsval -> Dial
}.

(** [new WebSocket(wsUrl)] once the socket has opened: it is open from
    now on, under a fresh handle. *)
Definition openSocket (st : State) : State :=
  mkState (connection st) (onChatUpdate st) (pollInterval st) (lastHash st)
    (openSockets st ∪ {[ nextHandle st ]}) (activeTimers st) (S (nextHandle st)).

(** [connectCDP(wsUrl)]: either throws ([None]) or returns the session,
    whose request counter stands at 2 after [Runtime.enable] and whose
    context list holds what was announced during the settle period.
    [connectCDP] has no [ws.close()]: when it throws after the socket has
    opened, the socket stays open and no caller holds it. *)
Definition connectCDP (net : Net) (wsUrl : jsval) (st : State) : option Cdp * State :=
  match dial net wsUrl with
  | DialFails => (None, st)
  | DialBreaks => (None, openSocket st)
  | DialOpens page announced =>
      (Some (mkCdp (nextHandle st) page 2 announced None), openSocket st)
  end.

(** What one run of [poll] shows to the outside: the chats handed to
    [onChatUpdate], one per call of the callback, whether the promise of
    [poll] was rejected, and whether it was rejected with [null] or
    [undefined]. *)
Record Cycle : Type := mkCycle {
  calls : list Chat;
  rejected : bool;
  nullish : bool
}.

Definition quiet : Cycle := mkCycle [] false false.

(** [chat && chat.html]: the empty string is falsy. *)
Definition hasHtml (chat : option Chat) : option Chat :=
  match chat with
  | Some c => match html c with [] => None | _ :: _ => Some c end
  | None => None
  end.

(** The closure [poll] of [startChatStream]. It refers to module-level
    variables only. The session object is mutated in place by
    [findCascadeContext] and [captureChat]; [connection] keeps pointing to
    it. *)
Definition poll (st : State) : State * Cycle :=
  match connection st with
  | None => (st, quiet)
  | Some cdp =>
      let '(contextId, cdp) := findCascadeContext cdp in
      let st := setConnection (Some cdp) st in
      match truthy contextId with
      | None => (st, quiet)
      | Some contextId =>
          let '(chat, cdp) := captureChat cdp contextId in
          let st := setConnection (Some cdp) st in
          match hasHtml chat with
          | None => (st, quiet)
          | Some chat =>
              let hash := hashString (html chat) in
              if decide (Some hash = lastHash st) then (st, quiet)
              else
                let st := setLastHash (Some hash) st in
                match onChatUpdate st with
                | Some cb =>
                    (st, mkCycle [chat] (cbThrows cb chat)
                           (cbThrows cb chat && cbNullish cb chat))
                | None => (st, quiet)
                end
          end
      end
  end.

(** How a call of [startChatStream] ends: it returns a result object with
    [success: true] or with [success: false], or its promise is
    rejected. *)
Inductive StartResult : Type :=
| Started (target : jsval)
| Failed (error : string)
| Thrown.

Definition success (r : StartResult) : bool :=
  match r with Started _ => true | Failed _ | Thrown => false end.

(** The loop [for (const target of targets)] of [startChatStream]; [log]
    collects the initial cycles that ran. An exception inside the [try]
    block (from [connectCDP], which throws [Error] objects, or from the
    initial [poll], which throws what the consumer threw) is logged and the
    loop goes on with the next target; the handler reads [e.message], which
    itself throws when [e] is [null] or [undefined]: the call then ends
    there, rejected. *)
Fixpoint tryTargets (net : Net) (targets : list Tagged) (st : State) (log : list Cycle)
  : State * (StartResult * list Cycle) :=
  match targets with
  | [] => (st, (Failed "No cascade element found in any target", log))
  | target :: rest =>
      match connectCDP net (webSocketDebuggerUrl (entry target)) st with
      | (None, st) => tryTargets net rest st log
      | (Some cdp, st) =>
          let '(contextId, cdp) := findCascadeContext cdp in
          match truthy contextId with
          | Some _ =>
              let st := setConnection (Some cdp) st in
              let '(st, cycle) := poll st in
              if rejected cycle then
                if nullish cycle then (st, (Thrown, log ++ [cycle]))
                else tryTargets net rest st (log ++ [cycle])
              else (setInterval st, (Started (title (entry target)), log ++ [cycle]))
          | None => tryTargets net rest (closeSocket (ws cdp) st) log
          end
      end
  end.

Definition startChatStream (net : Net) (updateCallback : option Callback) (st : State)
  : State * (StartResult * list Cycle) :=
  let st := setOnChatUpdate updateCallback st in
  match findTargets (listing net) with
  | [] => (st, (Failed "No CDP targets found", []))
  | targets => tryTargets net targets st []
  end.

Definition stopChatStream (st : State) : State :=
  let st :=
    match pollInterval st with
    | Some t => clearInterval t st
    | None => st
    end in
  let st :=
    match connection st with
    | Some cdp => setConnection None (closeSocket (ws cdp) st)
    | None => st
    end in
  setOnChatUpdate None (setLastHash None st).

(** The loop of the one-shot path of [getChatSnapshot]. *)
Fixpoint snapshotTargets (net : Net) (targets : list Tagged) (st : State)
  : State * option Chat :=
  match targets with
  | [] => (st, None)
  | target :: rest =>
      match connectCDP net (webSocketDebuggerUrl (entry target)) st with
      | (None, st) => snapshotTargets net rest st
      | (Some cdp, st) =>
          let '(contextId, cdp) := findCascadeContext cdp in
          match truthy contextId with
          | Some contextId =>
              let '(chat, cdp) := captureChat cdp contextId in
              (closeSocket (ws cdp) st, chat)
          | None => snapshotTargets net rest (closeSocket (ws cdp) st)
          end
      end
  end.

Definition getChatSnapshot (net : Net) (st : State) : State * option Chat :=
  match connection st with
  | None => snapshotTargets net (findTargets (listing net)) st
  | Some cdp =>
      let '(contextId, cdp) := findCascadeContext cdp in
      let st := setConnection (Some cdp) st in
      match truthy contextId with
      | None => (st, None)
      | Some contextId =>
          let '(chat, cdp) := captureChat cdp contextId in
          (setConnection (Some cdp) st, chat)
      end
  end.

Definition isStreaming (st : State) : bool :=
  match connection st, pollInterval st with
  | Some _, Some _ => true
  | _, _ => false
  end.

(** *** Recurring cycles *)

(** Between two cycles the page may announce context changes on the
    current connection. *)
Definition deliverAll (evs : list ContextEvent) (st : State) : State :=
  match connection st with
  | Some cdp => setConnection (Some (fold_left deliver evs cdp)) st
  | None => st
  end.

(** A run of timer ticks: each tick is preceded by the notifications that
    arrived since the last one. *)
Fixpoint runCycles (ticks : list (list ContextEvent)) (st : State) : State * list Cycle :=
  match ticks with
  | [] => (st, [])
  | evs :: rest =>
      let '(st, cycle) := poll (deliverAll evs st) in
      let '(st, cycles) := runCycles rest st in
      (st, cycle :: cycles)
  end.

(** The fingerprints of the snapshots handed to the consumer, in order. *)
Definition emissions (cycles : list Cycle) : list string :=
  map (fun chat => hashString (html chat)) (concat (map calls cycles)).

End Stream.

Import Stream.

(** ** The capture script: what [captureChat] evaluates in the page *)

Module Dom.

(** *** Strings *)

(** The text of the page is written with Latin-1 characters, one
    character per code unit. *)

(** White space as [String.prototype.trim] sees it, among the Latin-1
    code units. *)
Definition isSpace (c : ascii) : bool :=
  let n := nat_of_ascii c in
  ((9 <=? n) && (n <=? 13) || (n =? 32) || (n =? 160))%nat.

Fixpoint trimStart (s : string) : string :=
  match s with
  | EmptyString => EmptyString
  | String c rest => if isSpace c then trimStart rest else s
  end.

Fixpoint trimEnd (s : string) : string :=
  match s with
  | EmptyString => EmptyString
  | String c rest =>
      match trimEnd rest with
      | EmptyString => if isSpace c then EmptyString else String c EmptyString
      | kept => String c kept
      end
  end.

Definition trim (s : string) : string := trimEnd (trimStart s).

(** A string in a condition: the empty string is falsy. *)
Definition nonEmpty (s : string) : bool :=
  match s with EmptyString => false | String _ _ => true end.

(** [text.trim()] in a condition. *)
Definition hasText (s : string) : bool := nonEmpty (trim s).

Definition newline : string := String (ascii_of_nat 10) EmptyString.

(** [lines.join('\n')] *)
Definition joinLines (lines : list string) : string := String.concat newline lines.

(** ASCII white space, which separates the names in a [class]
    attribute. *)
Definition isAsciiSpace (c : ascii) : bool :=
  let n := nat_of_ascii c in
  ((n =? 9) || (n =? 10) || (n =? 12) || (n =? 13) || (n =? 32))%nat.

(** The class names of a [class] attribute. *)
Fixpoint tokens (s : string) (current : string) : list string :=
  match s with
  | EmptyString => if nonEmpty current then [current] else []
  | String c rest =>
      if isAsciiSpace c
      then (if nonEmpty current then [current] else []) ++ tokens rest EmptyString
      else tokens rest (String.append current (String c EmptyString))
  end.

(** *** Nodes *)

(** An element carries the identity of its object ([uid]), by which a
    NodeList refers to it after the tree around it has changed; a clone
    keeps the uids of its original, so that equal positions have equal
    uids. Tag names are in lower case. *)
Inductive Node : Type :=
| Element (uid : nat) (tag : string) (attrs : list (string * string)) (children : list Node)
| Text (data : string).

Definition uidOf (n : Node) : nat :=
  match n with Element u _ _ _ => u | Text _ => 0%nat end.

Definition isElement (n : Node) : bool :=
  match n with Element _ _ _ _ => true | Text _ => false end.

Definition hasUid (u : nat) (n : Node) : bool :=
  match n with Element v _ _ _ => (v =? u)%nat | Text _ => false end.

Definition childrenOf (n : Node) : list Node :=
  match n with Element _ _ _ cs => cs | Text _ => [] end.

(** [el.getAttribute(name)] *)
Fixpoint lookupAttr (name : string) (attrs : list (string * string)) : option string :=
  match attrs with
  | [] => None
  | (k, v) :: rest => if String.eqb k name then Some v else lookupAttr name rest
  end.

Definition getAttribute (name : string) (n : Node) : option string :=
  match n with Element _ _ attrs _ => lookupAttr name attrs | Text _ => None end.

(** [el.className] *)
Definition className (n : Node) : string := default EmptyString (getAttribute "class" n).

(** [node.textContent] *)
Fixpoint textContent (n : Node) : string :=
  match n with
  | Text data => data
  | Element _ _ _ cs => String.concat EmptyString (map textContent cs)
  end.

(** *** Selectors *)

Inductive Simple : Type :=
| Any                                  (* the universal selector *)
| Tag (name : string)                  (* a type selector, [name] *)
| Class (name : string)                (* a class selector, [.name] *)
| Has (attr : string)                  (* attribute present *)
| Is (attr value : string)             (* attribute equal to [value] *)
| Contains (attr part : string).       (* attribute containing [part] *)

Inductive Selector : Type :=
| Just (s : Simple)
| ChildOf (parent child : Simple).     (* [parent > child] *)

Definition matchesSimple (s : Simple) (n : Node) : bool :=
  match n with
  | Text _ => false
  | Element _ tag attrs _ =>
      match s with
      | Any => true
      | Tag name => String.eqb tag name
      | Class name =>
          existsb (String.eqb name) (tokens (default EmptyString (lookupAttr "class" attrs)) EmptyString)
      | Has attr => match lookupAttr attr attrs with Some _ => true | None => false end
      | Is attr value =>
          match lookupAttr attr attrs with Some v => String.eqb v value | None => false end
      | Contains attr part =>
          match lookupAttr attr attrs with Some v => includes v part | None => false end
      end
  end.

(** Whether [n], whose parent is [parent], matches one selector of a
    comma-separated list. *)
Definition matchesAny (sels : list Selector) (parent n : Node) : bool :=
  existsb (fun sel =>
             match sel with
             | Just s => matchesSimple s n
             | ChildOf p c => matchesSimple c n && matchesSimple p parent
             end) sels.

(** The descendants of [n] in document order, each with its parent. *)
Fixpoint descendants (n : Node) : list (Node * Node) :=
  match n with
  | Text _ => []
  | Element _ _ _ cs => flat_map (fun c => (n, c) :: descendants c) cs
  end.

(** [root.querySelectorAll(sels)] *)
Definition querySelectorAll (sels : list Selector) (root : Node) : list Node :=
  map snd (List.filter (fun pn => matchesAny sels pn.1 pn.2) (descendants root)).

(** [root.querySelector(sels)] *)
Definition querySelector (sels : list Selector) (root : Node) : option Node :=
  head (querySelectorAll sels root).

(** The ancestors of the element [target] inside [n], nearest first, given
    the ancestors [above] of [n]; [None] when [target] is not in the tree
    (it has been detached). *)
Fixpoint ancestorsIn (target : nat) (above : list Node) (n : Node) : option (list Node) :=
  match n with
  | Text _ => None
  | Element u _ _ cs =>
      if (u =? target)%nat then Some above
      else
        (fix first (cs : list Node) : option (list Node) :=
           match cs with
           | [] => None
           | c :: rest =>
               match ancestorsIn target (n :: above) c with
               | Some found => Some found
               | None => first rest
               end
           end) cs
  end.

(** The subtree of the element [target] as it stands in [root]. *)
Definition findElement (target : nat) (root : Node) : option Node :=
  if hasUid target root then Some root
  else head (List.filter (hasUid target) (map snd (descendants root))).

(** [node.remove()] for the element [target] below [n]. *)
Fixpoint removeNode (target : nat) (n : Node) : Node :=
  match n with
  | Text _ => n
  | Element u tag attrs cs =>
      Element u tag attrs
        (List.filter (fun c => negb (hasUid target c)) (map (removeNode target) cs))
  end.

(** [old.parentNode.replaceChild(new, old)] for the element [target] below
    [n]. *)
Fixpoint replaceNode (target : nat) (new : Node) (n : Node) : Node :=
  match n with
  | Text _ => n
  | Element u tag attrs cs =>
      Element u tag attrs
        (map (fun c => if hasUid target c then new else replaceNode target new c) cs)
  end.

(** A uid no element of [n] carries: the one given to an element made by
    [document.createElement]. *)
Fixpoint freshUid (n : Node) : nat :=
  match n with
  | Text _ => 0%nat
  | Element u _ _ cs => fold_right Nat.max (S u) (map freshUid cs)
  end.

(** *** What the browser supplies *)

(** The properties of the live page that are not in the markup: the size
    and the rasterisation of each canvas (by uid; [None] when [toDataURL]
    throws), the [position] that the parsed inline style of an element
    declares, whether an ancestor of the chat root is itself terminal-like,
    and the [style] attribute that an element has once a text has been
    assigned to its [style.cssText] (the declarations of the text as the
    browser serialises them). *)
Record Browser : Type := mkBrowser {
  canvasWidth : nat -> Z;
  canvasHeight : nat -> Z;
  toDataURL : nat -> option string;
  stylePosition : string -> string;
  rootInsideTerminal : bool;
  cssText : string -> string
}.

(** *** Terminal text *)

Definition terminalSel : list Selector :=
  [Just (Class "xterm"); Just (Contains "class" "terminal"); Just (Contains "class" "Terminal")].

(** Priority 1: the rows of the accessibility layer. *)
Definition keepAccessibilityRow (rowText : string) : bool :=
  nonEmpty rowText && hasText rowText &&
  negb (includes rowText "{") && negb (includes rowText ":").

Definition accessibilityText (container : Node) : string :=
  match querySelector [Just (Class "xterm-accessibility"); Just (Contains "class" "accessibility")]
          container with
  | Some accessibilityLayer =>
      let rows := querySelectorAll [Just (Is "role" "listitem"); Just (Tag "div")]
                    accessibilityLayer in
      joinLines (List.filter keepAccessibilityRow (map textContent rows))
  | None => EmptyString
  end.

(** Priority 2: the spans of the visible row layer. *)
Definition keepVisibleRow (rowText : string) : bool :=
  nonEmpty rowText && hasText rowText &&
  negb (includes rowText "{") && negb (includes rowText "background:") &&
  negb (includes rowText ".xterm").

Definition rowsText (container : Node) : option string :=
  match querySelector [Just (Class "xterm-rows")] container with
  | Some rowsLayer =>
      let rows := querySelectorAll [ChildOf (Tag "div") (Tag "span")] rowsLayer in
      Some (joinLines (List.filter keepVisibleRow (map textContent rows)))
  | None => None
  end.

(** Priority 3: a [pre] or [code] element. *)
Definition preCodeText (container : Node) : option string :=
  match querySelector [Just (Tag "pre"); Just (Tag "code")] container with
  | Some preCode =>
      let text := textContent preCode in
      Some (if includes text ".xterm" || includes text "background:" then EmptyString else text)
  | None => None
  end.

(** The body of [terminalContainers.forEach]: the value of [text] before
    the final test. *)
Definition terminalText (container : Node) : string :=
  let text := accessibilityText container in
  let text := if hasText text then text else default text (rowsText container) in
  let text := if hasText text then text else default text (preCodeText container) in
  text.

(** [terminalTexts]: index and trimmed text of every container that
    yielded some. *)
Definition terminalTexts (cascade : Node) : list (nat * string) :=
  omap (fun item => if hasText item.2 then Some (item.1, trim item.2) else None)
       (imap (fun i container => (i, terminalText container))
             (querySelectorAll terminalSel cascade)).

(** *** The clone *)

(** The text assigned to [pre.style.cssText]. *)
Definition preStyle : string :=
  "
                    background: #1e1e1e;
                    color: #d4d4d4;
                    font-family: 'Consolas', 'Monaco', 'Courier New', monospace;
                    font-size: 13px;
                    line-height: 1.4;
                    padding: 12px;
                    margin: 0;
                    overflow-x: auto;
                    white-space: pre-wrap;
                    word-break: break-all;
                    border-radius: 6px;
                ".

(** [document.createElement('pre')] with its text and style. *)
Definition makePre (browser : Browser) (uid : nat) (text : string) : Node :=
  Element uid "pre" [("style", cssText browser preStyle)]
    (if nonEmpty text then [Text text] else []).

(** [document.createElement('img')] with its source and style. *)
Definition makeImg (uid : nat) (dataUrl : string) : Node :=
  Element uid "img" [("src", dataUrl); ("style", "display: block;")] [].

(** The body of [terminalTexts.forEach]: in the clone, the first canvas of
    the terminal at [item.index] gives way to the [pre], the other canvases
    of that terminal are removed; a terminal without a canvas is left as it
    is. *)
Definition substituteTerminal (browser : Browser) (clonedTerminals : list Node)
  (clone : Node) (item : nat * string) : Node :=
  match clonedTerminals !! item.1 with
  | None => clone
  | Some terminal =>
      match findElement (uidOf terminal) clone with
      | None => clone
      | Some terminal =>
          match querySelectorAll [Just (Tag "canvas")] terminal with
          | [] => clone
          | first :: others =>
              fold_left (fun clone canvas => removeNode (uidOf canvas) clone) others
                (replaceNode (uidOf first) (makePre browser (freshUid clone) item.2) clone)
          end
      end
  end.

(** [canvas.closest(terminalSel)], the canvas being an element of the live
    chat root. *)
Definition insideTerminal (browser : Browser) (cascade canvas : Node) : bool :=
  matchesAny terminalSel canvas canvas ||
  existsb (fun a => matchesAny terminalSel a a)
    (default [] (ancestorsIn (uidOf canvas) [] cascade)) ||
  rootInsideTerminal browser.

(** [canvasReplacements]: index and data URL of every canvas outside the
    terminals that has a size and rasterises to more than 100 characters. *)
Definition canvasReplacements (browser : Browser) (cascade : Node) : list (nat * string) :=
  omap (fun item =>
          let canvas : Node := item.2 in
          if insideTerminal browser cascade canvas then None
          else if (0 <? canvasWidth browser (uidOf canvas)) &&
                  (0 <? canvasHeight browser (uidOf canvas))
          then match toDataURL browser (uidOf canvas) with
               | Some dataUrl =>
                   if (100 <? String.length dataUrl)%nat then Some (item.1, dataUrl) else None
               | None => None
               end
          else None)
       (imap (fun i canvas => (i, canvas)) (querySelectorAll [Just (Tag "canvas")] cascade)).

(** The body of [canvasReplacements.forEach]. *)
Definition substituteCanvas (clonedCanvases : list Node) (clone : Node)
  (item : nat * string) : Node :=
  match clonedCanvases !! item.1 with
  | None => clone
  | Some canvas => replaceNode (uidOf canvas) (makeImg (freshUid clone) item.2) clone
  end.

(** [list.forEach(el => el.remove())] *)
Definition removeAll (nodes : list Node) (clone : Node) : Node :=
  fold_left (fun clone el => removeNode (uidOf el) clone) nodes clone.

(** *** Clean-up of the input chrome *)

(** The ancestors of [el] below the clone root, nearest first; [None]
    when [el] is detached. *)
Definition ancestorsBelowRoot (clone el : Node) : option (list Node) :=
  @removelast Node <$> ancestorsIn (uidOf el) [] clone.

(** The test on a candidate container of the input bar. *)
Definition looksLikeInputBar (browser : Browser) (container : Node) : bool :=
  match querySelector [Just (Has "contenteditable")] container with
  | Some _ =>
      includes (className container) "input" ||
      includes (className container) "Input" ||
      includes (className container) "Composer" ||
      String.eqb (stylePosition browser (default EmptyString (getAttribute "style" container)))
        "sticky"
  | None => false
  end.

(** The block on the first [[contenteditable="true"]] element. *)
Definition removeInputBar (browser : Browser) (clone : Node) : Node :=
  match querySelector [Just (Is "contenteditable" "true")] clone with
  | None => clone
  | Some contentEditable =>
      let candidates := take 5 (default [] (ancestorsBelowRoot clone contentEditable)) in
      let clone :=
        match List.find (looksLikeInputBar browser) candidates with
        | Some container => removeNode (uidOf container) clone
        | None => clone
        end in
      match querySelector [Just (Is "contenteditable" "true")] clone with
      | Some remaining => removeNode (uidOf remaining) clone
      | None => clone
      end
  end.

Definition isFeedbackButton (btn : Node) : bool :=
  let text := trim (textContent btn) in
  String.eqb text "Good" || String.eqb text "Bad" ||
  String.eqb text "Accept all" || String.eqb text "Reject all" ||
  String.eqb text "Review Changes".

(** The body of the loop over [[contenteditable]]: up to five levels up,
    staying below the clone root, and remove what is reached. *)
Definition removeEditable (clone el : Node) : Node :=
  match ancestorsBelowRoot clone el with
  | None => clone
  | Some above => removeNode (uidOf (List.last (take 5 above) el)) clone
  end.

Definition isSticky (el : Node) : bool :=
  let style := default EmptyString (getAttribute "style" el) in
  includes style "position: sticky" || includes style "position:sticky".

(** [clone.lastElementChild] *)
Definition lastElementChild (n : Node) : option Node :=
  last (List.filter isElement (childrenOf n)).

(** The last child goes when it holds input elements and no message. *)
Definition removeFooter (clone : Node) : Node :=
  match lastElementChild clone with
  | None => clone
  | Some lastChild =>
      let hasMessageContent :=
        querySelector [Just (Contains "class" "message"); Just (Contains "class" "Message");
                       Just (Has "data-message")] lastChild in
      let hasInputElements :=
        querySelector [Just (Has "contenteditable"); Just (Has "placeholder");
                       Just (Tag "button"); Just (Tag "select")] lastChild in
      match hasMessageContent, hasInputElements with
      | None, Some _ => removeNode (uidOf lastChild) clone
      | _, _ => clone
      end
  end.

(** [querySelectorAll(sels).forEach(el => el.remove())] on the clone. *)
Definition removeMatching (sels : list Selector) (clone : Node) : Node :=
  removeAll (querySelectorAll sels clone) clone.

Definition cleanUp (browser : Browser) (clone : Node) : Node :=
  let clone := removeInputBar browser clone in
  let clone := removeMatching [Just (Tag "textarea"); Just (Tag "input")] clone in
  let clone := removeAll (List.filter isFeedbackButton (querySelectorAll [Just (Tag "button")] clone))
                 clone in
  let clone := removeMatching [Just (Has "placeholder")] clone in
  let clone := removeMatching [Just (Has "data-placeholder")] clone in
  let clone := fold_left removeEditable (querySelectorAll [Just (Has "contenteditable")] clone)
                 clone in
  let clone := removeMatching [Just (Contains "class" "Composer");
                               Just (Contains "class" "composer")] clone in
  let clone := removeMatching [Just (Contains "class" "InputBar");
                               Just (Contains "class" "inputBar");
                               Just (Contains "class" "input-bar")] clone in
  let clone := removeMatching [Just (Contains "class" "ChatInput");
                               Just (Contains "class" "chatInput");
                               Just (Contains "class" "chat-input")] clone in
  let clone := removeAll (List.filter isSticky (querySelectorAll [Just Any] clone)) clone in
  removeFooter clone.

(** *** The markup of the snapshot *)

(** The tree that [clone.outerHTML] serialises, for the chat root
    [cascade] of the live page. *)
Definition captureMarkup (browser : Browser) (cascade : Node) : Node :=
  let texts := terminalTexts cascade in
  let clone := cascade in
  let clonedTerminals := querySelectorAll terminalSel clone in
  let clone := fold_left (substituteTerminal browser clonedTerminals) texts clone in
  let replacements := canvasReplacements browser cascade in
  let clonedCanvases := querySelectorAll [Just (Tag "canvas")] clone in
  let clone := fold_left (substituteCanvas clonedCanvases) replacements clone in
  cleanUp browser clone.

(** [document.getElementById('cascade')] may find nothing: the script then
    returns an error object and there is no markup. *)
Definition captureScript (browser : Browser) (cascade : option Node) : option Node :=
  captureMarkup browser <$> cascade.

End Dom.

Import Dom.

(** ** Vocabulary of the properties *)

(** Two states of a session object: same socket, same peer, same
    context list. *)
Definition sameSession (a b : Cdp) : Prop :=
  ws a = ws b ∧ peer a = peer b ∧ contexts a = contexts b.

(** An emission list is gated from [last] when every fingerprint differs
    from the one before it, the first one from [last]. *)
Fixpoint gated (last : option string) (hashes : list string) : Prop :=
  match hashes with
  | [] => True
  | h :: rest => last ≠ Some h ∧ gated (Some h) rest
  end.

(** The fingerprint a trace leaves behind. *)
Definition lastOf (last : option string) (hashes : list string) : option string :=
  fold_left (fun _ h => Some h) hashes last.

(** A step of the module from [st] to [st'] that hands the fingerprints
    [es] to the consumer respects the gate: the callback stays the same;
    without a callback nothing is handed over; with one, [es] is gated from
    [lastHash st] and [lastHash st'] is what [es] leaves. *)
Definition traced (st st' : State) (es : list string) : Prop :=
  onChatUpdate st' = onChatUpdate st ∧
  match onChatUpdate st with
  | None => es = []
  | Some _ => gated (lastHash st) es ∧ lastHash st' = lastOf (lastHash st) es
  end.

(** The state remembers the html [last] as the one handed over last (or
    that none was): [lastHash] is its fingerprint. *)
Definition remembers (st : State) (last : option jsstring) : Prop :=
  lastHash st = hashString <$> last.

(** A target hosts the chat root when its socket opens and the locator,
    run on the fresh session, returns a truthy context id. *)
Definition hostsChatRoot (net : Net) (target : Tagged) : bool :=
  match dial net (webSocketDebuggerUrl (entry target)) with
  | DialFails | DialBreaks => false
  | DialOpens page announced =>
      match truthy (findCascadeContext (mkCdp 0 page 2 announced None)).1 with
      | Some _ => true
      | None => false
      end
  end.

(** A network on which no [connectCDP] throws with its socket open. *)
Definition settles (net : Net) : Prop :=
  ∀ wsUrl, dial net wsUrl ≠ DialBreaks.

(** Handles are handed out in increasing order: every open socket and every
    scheduled timer lies below [nextHandle]. *)
Definition wellFormed (st : State) : Prop :=
  set_Forall (fun h => (h < nextHandle st)%nat) (openSockets st) ∧
  set_Forall (fun t => (t < nextHandle st)%nat) (activeTimers st).

(** Section 4.5 on a second [start]: the prior connection is closed and the
    prior schedule cancelled. *)
Definition restartClosesPrior (net : Net) (cb : option Callback) (st : State) : Prop :=
  ∀ old t,
    connection st = Some old → pollInterval st = Some t →
    (let st' := (startChatStream net cb st).1 in
     (ws old ∉ openSockets st') ∧ (t ∉ activeTimers st')).

(** ** Scenarios *)

(** The scenario of section 8: port A closed, port B lists one page titled
    "Workbench", port C lists two entries that match nothing. *)
Definition workbenchPage : Target :=
  mkTarget (JString "file:///app/index.html") (JString "Workbench") (JString "page")
    (JString "ws://127.0.0.1:9000/devtools/page/1").

Definition scenarioListing (port : Z) : PortResponse :=
  if port =? 9000 then Listing [workbenchPage]
  else if port =? 9001 then
    Listing [mkTarget (JString "chrome-extension://x") (JString "bg") (JString "worker") JUndefined;
             mkTarget JUndefined JNull (JString "iframe") JUndefined]
  else Unreachable.

(** Port 9222 lists the IDE window next to an entry whose title is a
    number. *)
Definition idePage : Target :=
  mkTarget (JString "vscode-file://vscode-app/workbench.html") (JString "Antigravity")
    (JString "page") (JString "ws://127.0.0.1:9222/devtools/page/A").



(** A page in which no context holds the chat root any more. *)
Definition emptyPage : Remote :=
  mkRemote (fun _ _ => ProbeMissing) (fun _ _ => CaptureError).

Definition staleSession : Cdp := mkCdp 0 emptyPage 2 [7; 8] (Some 7).

Definition chatOne : Chat := mkChat (codeUnits "<p>one</p>") [] [] [].
Definition chatTwo : Chat := mkChat (codeUnits "<p>two</p>") [] [] [].

(** A page whose context 3 holds the chat root; it shows [chatOne] up to
    request 5 and [chatTwo] from request 6 on. *)
Definition livePage : Remote :=
  mkRemote (fun _ ctx => if ctx =? 3 then ProbeFound else ProbeMissing)
           (fun id _ => CaptureValue (if (id <? 6)%nat then chatOne else chatTwo)).

Definition onlyPort9222 (port : Z) : PortResponse :=
  if port =? 9222 then Listing [idePage] else Unreachable.

(** One IDE window on port 9222 with the chat root in context 3. *)
Definition liveNet : Net := mkNet onlyPort9222 (fun _ => DialOpens livePage [1; 3]).

(** The same window, with no chat root in any context. *)
Definition rootlessNet : Net := mkNet onlyPort9222 (fun _ => DialOpens emptyPage [1; 3]).

(** Port 9222 lists two windows: the socket of the first opens but its
    [Runtime.enable] is rejected; the second hosts the chat root in
    context 3. *)
Definition secondPage : Target :=
  mkTarget (JString "vscode-file://vscode-app/workbench.html") (JString "Antigravity")
    (JString "page") (JString "ws://127.0.0.1:9222/devtools/page/B").

Definition halfBrokenNet : Net :=
  mkNet (fun port => if port =? 9222 then Listing [idePage; secondPage] else Unreachable)
        (fun wsUrl =>
           match wsUrl with
           | JString s =>
               if String.eqb s "ws://127.0.0.1:9222/devtools/page/A" then DialBreaks
               else DialOpens livePage [1; 3]
           | _ => DialFails
           end).

(** No port answers. *)
Definition deadNet : Net := mkNet (fun _ => Unreachable) (fun _ => DialFails).

Definition cbQuiet : Callback := mkCallback 1 (fun _ => false) (fun _ => false).

(** A consumer that throws on every chat but [chatOne]. *)
Definition cbPicky : Callback :=
  mkCallback 2 (fun chat => negb (bool_decide (html chat = html chatOne))) (fun _ => false).

(** A consumer that throws an [Error] on every chat, and one that throws
    [null]. *)
Definition cbThrowing : Callback := mkCallback 3 (fun _ => true) (fun _ => false).

Definition cbThrowingNull : Callback := mkCallback 4 (fun _ => true) (fun _ => true).

(** The core after a first successful start. *)
Definition running : State := (startChatStream liveNet (Some cbQuiet) initial).1.

Definition runningPicky : State := (startChatStream liveNet (Some cbPicky) initial).1.

(** *** The terminal scenario of section 8 *)

Definition lsText : string := String.append "ls -la" (String.append newline "total 0").

(** The accessibility layer with its two rows. *)
Definition accessibilityLayer : Node :=
  Element 3 "div" [("class", "xterm-accessibility")]
    [Element 4 "div" [("role", "listitem")] [Text "ls -la"];
     Element 5 "div" [("role", "listitem")] [Text "total 0"]].

Definition canvasEl (uid : nat) : Node := Element uid "canvas" [] [].

Definition screenOf (layers : list Node) : Node :=
  Element 2 "div" [("class", "xterm-screen")] layers.

Definition containerOf (layers : list Node) : Node :=
  Element 1 "div" [("class", "xterm")] [screenOf layers; accessibilityLayer].

Definition cascadeOf (layers : list Node) : Node :=
  Element 0 "div" [("id", "cascade")] [containerOf layers].

(** A chat root with one terminal whose screen holds [canvases] canvas
    layers (uids 6, 7, ...) next to the accessibility layer. *)
Definition terminalDoc (canvases : nat) : Node :=
  cascadeOf (map canvasEl (seq 6 canvases)).

(** A chat root with one terminal-like container that holds the
    accessibility layer and nothing else. *)
Definition bareTerminalDoc : Node :=
  Element 0 "div" [("id", "cascade")]
    [Element 1 "div" [("class", "xterm")] [accessibilityLayer]].

(** A browser whose canvases have the default size and do not
    rasterise, and which keeps a style text as it was assigned. *)
Definition plainBrowser : Browser :=
  mkBrowser (fun _ => 300) (fun _ => 150) (fun _ => None) (fun _ => EmptyString) false
    (fun text => text).




(** The text a container contributes to [terminalTexts], if any. *)
Definition recovered (container : Node) : option string :=
  if hasText (terminalText container) then Some (trim (terminalText container)) else None.

(** ** Further vocabulary *)

(** *** The fingerprint as a number *)

(** The polynomial that the loop of [hashString] evaluates, without
    wrap-around: each turn multiplies by 31 and adds the code unit. *)
Definition poly31 (str : jsstring) (acc : Z) : Z :=
  fold_left (fun a code => 31 * a + code) str acc.

(** The value of a radix-36 digit. *)
Definition digitValue (c : ascii) : Z :=
  let n := Z.of_nat (nat_of_ascii c) in
  if (48 <=? n) && (n <=? 57) then n - 48 else n - 87.

Fixpoint parseDigits (s : string) (acc : Z) : Z :=
  match s with
  | EmptyString => acc
  | String c rest => parseDigits rest (36 * acc + digitValue c)
  end.

(** Reading a fingerprint back, as [parseInt(s, 36)] does. *)
Definition parse36 (s : string) : Z :=
  match s with
  | String "-"%char rest => - parseDigits rest 0
  | _ => parseDigits s 0
  end.

(** *** Further scenarios *)

(** A fresh session on [livePage], before the first locate. *)
Definition freshSession : Cdp := mkCdp 0 livePage 2 [1; 3] None.

(** A page on which every evaluation is rejected. *)
Definition deadPage : Remote :=
  mkRemote (fun _ _ => ProbeThrows) (fun _ _ => CaptureThrows).

(** A session whose cached context 3 has just been destroyed: the page
    rejects evaluations in it and reports the chat root in context 4. *)
Definition reloadedPage : Remote :=
  mkRemote (fun _ ctx => if ctx =? 3 then ProbeThrows
                         else if ctx =? 4 then ProbeFound else ProbeMissing)
           (fun _ _ => CaptureValue chatOne).

Definition reloadedSession : Cdp := mkCdp 0 reloadedPage 6 [1; 3; 4] (Some 3).

(** *** Histories of the module *)





(** A consumer that never throws (or no consumer). *)
Definition harmless (cb : option Callback) : Prop :=
  ∀ c chat, cb = Some c → cbThrows c chat = false.

(** The page behind the connection shows one markup only: every chat it
    returns has the html [h]. *)
Definition showsOnly (h : jsstring) (st : State) : Prop :=
  ∀ cdp k ctx chat,
    connection st = Some cdp →
    replyCapture (peer cdp) k ctx = CaptureValue chat → html chat = h.

(** A core connected to a page that always shows [chatOne], before its
    first cycle. *)
Definition steadyState : State :=
  setConnection (Some (mkCdp 0 reloadedPage 2 [4] None))
    (setOnChatUpdate (Some cbQuiet) initial).

(** *** Removal by identity *)

(** Whether the predicate [dead] marks the node (text nodes carry no
    identity and are never marked). *)
Definition deadNode (dead : nat -> bool) (n : Node) : bool :=
  match n with Element u _ _ _ => dead u | Text _ => false end.

(** The tree without the subtrees of the marked elements below the
    root. *)
Fixpoint removeWhere (dead : nat -> bool) (n : Node) : Node :=
  match n with
  | Text _ => n
  | Element u tag attrs cs =>
      Element u tag attrs
        (List.filter (fun c => negb (deadNode dead c)) (map (removeWhere dead) cs))
  end.

(** A node without its children: its identity, tag and attributes, or its
    text. *)
Definition shell (n : Node) : Node :=
  match n with
  | Element u tag attrs _ => Element u tag attrs []
  | Text data => Text data
  end.

(** The selectors whose matches the clean-up removes outright. *)
Definition chromeSel : list Selector :=
  [Just (Tag "textarea"); Just (Tag "input");
   Just (Has "placeholder"); Just (Has "data-placeholder");
   Just (Contains "class" "Composer"); Just (Contains "class" "composer");
   Just (Contains "class" "InputBar"); Just (Contains "class" "inputBar");
   Just (Contains "class" "input-bar");
   Just (Contains "class" "ChatInput"); Just (Contains "class" "chatInput");
   Just (Contains "class" "chat-input")].

(** No element below the root of [n] satisfies the test [Q] (on a parent
    and its child). *)
Definition noneMatches (Q : Node -> Node -> bool) (n : Node) : Prop :=
  forall parent el, In (parent, el) (descendants n) -> Q parent el = false.

(** A test that looks at the tag and the attributes of an element and of
    its parent only, not at what they contain. *)
Definition shapeOnly (Q : Node -> Node -> bool) : Prop :=
  forall p n p' n', shell p = shell p' -> shell n = shell n' -> Q p n = Q p' n'.

(** [after] is [before] without the subtrees of some of its elements. *)
Definition removalOf (before after : Node) : Prop :=
  exists dead, after = removeWhere dead before.

(** The test of the pass over [position: sticky]. *)
Definition stickyElement (parent el : Node) : bool := isElement el && isSticky el.

(** The identities of the elements of a tree, root first, and of those
    below its root. In a DOM tree no two elements share one. *)
Fixpoint uids (n : Node) : list nat :=
  match n with
  | Text _ => []
  | Element u _ _ cs => u :: flat_map uids cs
  end.

Definition uidsBelow (n : Node) : list nat := flat_map uids (childrenOf n).

(** A chat root with one message and an input area whose editable region
    is not marked [contenteditable="true"]. *)
Definition composerDoc : Node :=
  Element 1 "div" [("id", "cascade")]
    [Element 2 "div" [("class", "message")] [Text "hello"];
     Element 3 "div" [("class", "footer")]
       [Element 4 "div" [("class", "editor")]
          [Element 5 "div" [("contenteditable", "plaintext-only")] [Text "Ask anything"]]]].

(** ** The caller: the chat routes of [http-server.mjs] *)

Module Routes.

(** The JavaScript values that the chat routes handle. *)
Inductive Json : Type :=
| JsonUndefined
| JsonString (s : string)
| JsonText (s : jsstring)               (* a string taken from the page *)
| JsonObject (fields : list (string * Json)).

Fixpoint lookupField (key : string) (fields : list (string * Json)) : Json :=
  match fields with
  | [] => JsonUndefined
  | (k, v) :: rest => if String.eqb k key then v else lookupField key rest
  end.

(** [v.key] for a value that is not nullish: [undefined] when there is no
    such property. *)
Definition prop (key : string) (v : Json) : Json :=
  match v with
  | JsonObject fields => lookupField key fields
  | _ => JsonUndefined
  end.

(** [JSON.stringify(v)], as the value that the receiver parses from the
    text: the properties whose value is [undefined] are left out. *)
Fixpoint stringify (v : Json) : Json :=
  match v with
  | JsonObject fields =>
      JsonObject
        ((fix each (fields : list (string * Json)) : list (string * Json) :=
            match fields with
            | [] => []
            | (k, JsonUndefined) :: rest => each rest
            | (k, x) :: rest => (k, stringify x) :: each rest
            end) fields)
  | _ => v
  end.

(** The object that the capture script returns and [captureChat] hands
    over. *)
Definition chatObject (chat : Chat) : Json :=
  JsonObject [("html", JsonText (html chat)); ("css", JsonText (css chat));
              ("bodyBg", JsonText (bodyBg chat)); ("bodyColor", JsonText (bodyColor chat))].

Inductive ReadyState : Type := CONNECTING | OPEN | CLOSING | CLOSED.

Record Client : Type := mkClient {
  clientId : nat;
  readyState : ReadyState
}.

Definition isOpen (client : Client) : bool :=
  match readyState client with OPEN => true | _ => false end.

(** [broadcast(event, data)]: the messages sent, each with its receiver;
    [ts] is the time of the call. *)
Definition broadcast (clients : list Client) (event : string) (data : Json) (ts : string)
  : list (nat * Json) :=
  let message :=
    stringify (JsonObject [("event", JsonString event); ("data", data);
                           ("ts", JsonString ts)]) in
  map (fun client => (clientId client, message)) (List.filter isOpen clients).

(** The callback that the start route passes to [startChatStream];
    [timestamp] is the time at which it builds the data. *)
Definition chatUpdate (clients : list Client) (chat : Json) (timestamp ts : string)
  : list (nat * Json) :=
  broadcast clients "chat_update"
    (JsonObject [("messageCount", prop "messageCount" chat);
                 ("messages", prop "messages" chat);
                 ("timestamp", JsonString timestamp)]) ts.

End Routes.

Import Routes.


(** No canvas element with the identity [u] is below the root of [n]. *)
Definition canvasGone (u : nat) (n : Node) : Prop :=
  forall parent el, In (parent, el) (descendants n) -> uidOf el = u ->
    matchesSimple (Tag "canvas") el = false.


Definition chartUrl : string :=
  String.append "data:image/png;base64,"
    (String.concat EmptyString (repeat "iVBORw0KGgo" 10)).

Definition chartBrowser : Browser :=
  mkBrowser (fun _ => 300) (fun _ => 150) (fun _ => Some chartUrl) (fun _ => EmptyString) false
    (fun text => text).

(** A chat root with a terminal (one canvas layer, uid 6) followed by a
    message that holds a chart (uid 12). *)
Definition mixedDoc : Node :=
  Element 0 "div" [("id", "cascade")]
    [containerOf [canvasEl 6];
     Element 11 "div" [("class", "message")] [Element 12 "canvas" [] []]].

(** * Properties *)

(** ** The cycle *)

(** *** The session object keeps its socket, its peer and its contexts *)

Lemma sameSession_refl a : sameSession a a.
Proof. by repeat split. Qed.

Lemma sameSession_trans a b c : sameSession a b → sameSession b c → sameSession a c.
Proof. intros (?&?&?) (?&?&?); repeat split; congruence. Qed.

Lemma evaluateProbe_frame cdp ctx : sameSession cdp (evaluateProbe cdp ctx).2.
Proof. by repeat split. Qed.

Lemma searchContexts_frame ctxs cdp : sameSession cdp (searchContexts ctxs cdp).2.
Proof.
  revert cdp; induction ctxs as [|ctx rest IH]; intros cdp; simpl.
  - apply sameSession_refl.
  - destruct (replyProbe _ _ _); simpl.
    + eapply sameSession_trans; [|apply IH]. by repeat split.
    + by repeat split.
    + eapply sameSession_trans; [|apply IH]. by repeat split.
Qed.

Lemma findCascadeContext_frame cdp : sameSession cdp (findCascadeContext cdp).2.
Proof.
  unfold findCascadeContext.
  destruct (truthy (cascadeContextId cdp)) as [cached|]; [|apply searchContexts_frame].
  simpl. destruct (replyProbe _ _ _); simpl.
  - eapply sameSession_trans; [|apply searchContexts_frame]. by repeat split.
  - by repeat split.
  - eapply sameSession_trans; [|apply searchContexts_frame]. by repeat split.
Qed.

Lemma captureChat_frame cdp ctx : sameSession cdp (captureChat cdp ctx).2.
Proof.
  unfold captureChat; simpl. destruct (replyCapture _ _ _); by repeat split.
Qed.

(** What a cycle leaves alone. *)
Lemma poll_frame st :
  onChatUpdate (poll st).1 = onChatUpdate st ∧
  pollInterval (poll st).1 = pollInterval st ∧
  openSockets (poll st).1 = openSockets st ∧
  activeTimers (poll st).1 = activeTimers st ∧
  nextHandle (poll st).1 = nextHandle st ∧
  option_Forall2 sameSession (connection st) (connection (poll st).1).
Proof.
  unfold poll.
  destruct (connection st) as [cdp|] eqn:Hc; [|simpl; rewrite Hc; repeat split; constructor].
  pose proof (findCascadeContext_frame cdp) as Hf.
  destruct (findCascadeContext cdp) as [cid cdp1]; simpl in Hf.
  destruct (truthy cid) as [id|]; [|repeat split; by constructor].
  pose proof (captureChat_frame cdp1 id) as Hk.
  destruct (captureChat cdp1 id) as [chat cdp2]; simpl in Hk.
  assert (sameSession cdp cdp2) as Hs by (eapply sameSession_trans; eassumption).
  destruct (hasHtml chat) as [c|]; [|repeat split; by constructor].
  simpl. case_decide; [repeat split; by constructor|].
  destruct (onChatUpdate st) eqn:Hcb; simpl; rewrite ?Hcb; repeat split; by constructor.
Qed.

(** The gate of a cycle: either nothing is handed to the consumer, or one
    chat is, whose fingerprint differs from [lastHash] and becomes the new
    [lastHash]. *)
Lemma poll_gate st :
  (calls (poll st).2 = [] ∧ rejected (poll st).2 = false ∧
   (lastHash (poll st).1 = lastHash st ∨ onChatUpdate st = None)) ∨
  (∃ chat cb,
      calls (poll st).2 = [chat] ∧ onChatUpdate st = Some cb ∧
      rejected (poll st).2 = cbThrows cb chat ∧
      lastHash st ≠ Some (hashString (html chat)) ∧
      lastHash (poll st).1 = Some (hashString (html chat))).
Proof.
  unfold poll.
  destruct (connection st) as [cdp|]; [|left; simpl; auto].
  destruct (findCascadeContext cdp) as [cid cdp1].
  destruct (truthy cid) as [id|]; [|left; simpl; auto].
  destruct (captureChat cdp1 id) as [chat cdp2].
  destruct (hasHtml chat) as [c|]; [|left; simpl; auto].
  simpl. case_decide as Hd; [left; simpl; auto|].
  destruct (onChatUpdate st) as [cb|] eqn:Hcb; simpl; rewrite ?Hcb; simpl.
  - right. exists c, cb. repeat split; auto.
  - left. auto.
Qed.

(** *** Traces of emissions *)

Lemma gated_app last a b :
  gated last (a ++ b) ↔ gated last a ∧ gated (lastOf last a) b.
Proof.
  revert last; induction a as [|h a IH]; intros last; simpl.
  - tauto.
  - rewrite IH. unfold lastOf. simpl. tauto.
Qed.

Lemma lastOf_app last a b : lastOf last (a ++ b) = lastOf (lastOf last a) b.
Proof. unfold lastOf. apply fold_left_app. Qed.

Lemma gated_adjacent last hashes i h1 h2 :
  gated last hashes → hashes !! i = Some h1 → hashes !! S i = Some h2 → h1 ≠ h2.
Proof.
  revert last i; induction hashes as [|h rest IH]; intros last i Hg H1 H2; [done|].
  destruct Hg as [_ Hg]. destruct i as [|i]; simpl in *.
  - destruct rest as [|h' rest]; [done|]. simpl in *.
    destruct Hg as [Hne _]. congruence.
  - eapply IH; eauto.
Qed.

Lemma traced_silent st st' :
  onChatUpdate st' = onChatUpdate st → lastHash st' = lastHash st → traced st st' [].
Proof. intros H1 H2. split; [done|]. by destruct (onChatUpdate st). Qed.

Lemma traced_trans st1 st2 st3 a b :
  traced st1 st2 a → traced st2 st3 b → traced st1 st3 (a ++ b).
Proof.
  intros [Hcb1 H1] [Hcb2 H2]. split; [congruence|].
  rewrite Hcb1 in H2.
  destruct (onChatUpdate st1).
  - destruct H1 as [Hg1 Hl1], H2 as [Hg2 Hl2]. rewrite Hl1 in Hg2, Hl2.
    split; [by apply gated_app|by rewrite lastOf_app].
  - by subst.
Qed.

Lemma traced_gated st st' es : traced st st' es → gated (lastHash st) es.
Proof.
  intros [_ H]. destruct (onChatUpdate st); [by destruct H|by subst].
Qed.

Lemma poll_traced st : traced st (poll st).1 (emissions [(poll st).2]).
Proof.
  pose proof (poll_frame st) as (Hcb & _).
  split; [done|]. unfold emissions. simpl. rewrite app_nil_r.
  destruct (poll_gate st) as [(-> & _ & Hl)|(chat & cb & -> & Hcb' & _ & Hne & Hl)].
  - simpl. destruct (onChatUpdate st); [|done].
    destruct Hl as [Hl|?]; [by split|done].
  - rewrite Hcb'. simpl. by repeat split.
Qed.

Lemma emissions_app a b : emissions (a ++ b) = emissions a ++ emissions b.
Proof. unfold emissions. by rewrite map_app, concat_app, map_app. Qed.

Lemma deliverAll_frame evs st :
  onChatUpdate (deliverAll evs st) = onChatUpdate st ∧
  lastHash (deliverAll evs st) = lastHash st ∧
  pollInterval (deliverAll evs st) = pollInterval st ∧
  openSockets (deliverAll evs st) = openSockets st ∧
  activeTimers (deliverAll evs st) = activeTimers st.
Proof. unfold deliverAll. by destruct (connection st). Qed.

Lemma runCycles_length ticks st : length (runCycles ticks st).2 = length ticks.
Proof.
  revert st; induction ticks as [|evs rest IH]; intros st; simpl; [done|].
  destruct (poll (deliverAll evs st)) as [st1 c].
  specialize (IH st1). destruct (runCycles rest st1) as [st2 cs]. simpl in *. lia.
Qed.

Lemma runCycles_traced ticks st :
  traced st (runCycles ticks st).1 (emissions (runCycles ticks st).2).
Proof.
  revert st; induction ticks as [|evs rest IH]; intros st; simpl.
  - by apply traced_silent.
  - pose proof (deliverAll_frame evs st) as (Hcb & Hl & _).
    pose proof (poll_traced (deliverAll evs st)) as Hp.
    destruct (poll (deliverAll evs st)) as [st1 c]. simpl in Hp.
    specialize (IH st1). destruct (runCycles rest st1) as [st2 cs]. simpl in *.
    change (c :: cs) with ([c] ++ cs). rewrite emissions_app.
    eapply traced_trans; [|exact IH].
    change (emissions [c]) with ([] ++ emissions [c]).
    eapply traced_trans; [|exact Hp]. by apply traced_silent.
Qed.

(** Every cycle calls the consumer at most once. *)
Lemma poll_calls_once st : (length (calls (poll st).2) ≤ 1)%nat.
Proof.
  destruct (poll_gate st) as [(-> & _)|(chat & cb & -> & _)]; simpl; lia.
Qed.

Lemma runCycles_calls_once ticks st :
  Forall (fun c => (length (calls c) ≤ 1)%nat) (runCycles ticks st).2.
Proof.
  revert st; induction ticks as [|evs rest IH]; intros st; simpl; [constructor|].
  pose proof (poll_calls_once (deliverAll evs st)) as Hp.
  destruct (poll (deliverAll evs st)) as [st1 c].
  specialize (IH st1). destruct (runCycles rest st1) as [st2 cs]. simpl in *.
  by constructor.
Qed.

(** *** The loop of [startChatStream] *)

Lemma connectCDP_module net wsUrl st :
  let st' := (connectCDP net wsUrl st).2 in
  connection st' = connection st ∧ onChatUpdate st' = onChatUpdate st ∧
  pollInterval st' = pollInterval st ∧ lastHash st' = lastHash st ∧
  activeTimers st' = activeTimers st.
Proof. unfold connectCDP. by destruct (dial net wsUrl). Qed.

Lemma tryTargets_traced net targets st log :
  let r := tryTargets net targets st log in
  ∃ cycles, r.2.2 = log ++ cycles ∧ traced st r.1 (emissions cycles) ∧
            Forall (fun c => (length (calls c) ≤ 1)%nat) cycles.
Proof.
  revert st log; induction targets as [|target rest IH]; intros st log; simpl.
  - exists []. rewrite app_nil_r. repeat split; [by apply traced_silent|constructor].
  - pose proof (connectCDP_module net (webSocketDebuggerUrl (entry target)) st)
      as (_ & Hcb & _ & Hl & _).
    destruct (connectCDP net (webSocketDebuggerUrl (entry target)) st) as [[cdp|] st1];
      simpl in Hcb, Hl.
    + destruct (findCascadeContext cdp) as [cid cdp1].
      destruct (truthy cid) as [id|].
      * pose proof (poll_traced (setConnection (Some cdp1) st1)) as Hp.
        pose proof (poll_calls_once (setConnection (Some cdp1) st1)) as Ho.
        destruct (poll (setConnection (Some cdp1) st1)) as [st2 c]. simpl in Hp, Ho.
        assert (traced st st2 (emissions [c])) as Hp'.
        { change (emissions [c]) with ([] ++ emissions [c]).
          eapply traced_trans; [|exact Hp]. by apply traced_silent. }
        destruct (rejected c); [destruct (nullish c)|].
        -- exists [c]. simpl. split; [done|]. split; [exact Hp'|].
           constructor; [exact Ho|constructor].
        -- destruct (IH st2 (log ++ [c])) as (cycles & Hlog & Ht & Hf).
           exists (c :: cycles). rewrite Hlog, <- app_assoc. split; [done|]. split.
           ++ change (c :: cycles) with ([c] ++ cycles). rewrite emissions_app.
              eapply traced_trans; eauto.
           ++ by constructor.
        -- exists [c]. simpl. split; [done|]. split; [|constructor; [exact Ho|constructor]].
           rewrite <- (app_nil_r (emissions [c])).
           eapply traced_trans; [exact Hp'|]. by apply traced_silent.
      * destruct (IH (closeSocket (ws cdp1) st1) log) as (cycles & Hlog & Ht & Hf).
        exists cycles. split; [done|]. split; [|done].
        change (emissions cycles) with ([] ++ emissions cycles).
        eapply traced_trans; [|exact Ht]. by apply traced_silent.
    + destruct (IH st1 log) as (cycles & Hlog & Ht & Hf).
      exists cycles. split; [done|]. split; [|done].
      change (emissions cycles) with ([] ++ emissions cycles).
      eapply traced_trans; [|exact Ht]. by apply traced_silent.
Qed.

Lemma startChatStream_traced net cb st :
  let r := startChatStream net cb st in
  traced (setOnChatUpdate cb st) r.1 (emissions r.2.2) ∧
  Forall (fun c => (length (calls c) ≤ 1)%nat) r.2.2.
Proof.
  unfold startChatStream.
  destruct (findTargets (listing net)) as [|t targets] eqn:Hf.
  - simpl. split; [by apply traced_silent|constructor].
  - destruct (tryTargets_traced net (t :: targets) (setOnChatUpdate cb st) [])
      as (cycles & Hlog & Ht & Hfa).
    cbv zeta in Hlog. rewrite app_nil_l in Hlog.
    cbv beta iota zeta. rewrite Hlog. by split.
Qed.

(** C1. In every run of a started stream (the initial cycle of
    [startChatStream] followed by any number of timer ticks, whatever the
    page answers and whatever contexts come and go) each cycle calls the
    consumer at most once; a snapshot is handed over only when its
    fingerprint differs from the one handed over before it, the first one
    from the [lastHash] the run started with; so no two consecutive
    emissions carry equal fingerprints. *)
Theorem poller_emits_only_changes
  (net : Net) (cb : option Callback) (ticks : list (list ContextEvent)) (st : State) :
  let started := startChatStream net cb st in
  let recurring := runCycles ticks started.1 in
  let cycles := started.2.2 ++ recurring.2 in
  length recurring.2 = length ticks ∧
  Forall (fun c => (length (calls c) ≤ 1)%nat) cycles ∧
  gated (lastHash st) (emissions cycles) ∧
  (∀ i h1 h2, emissions cycles !! i = Some h1 →
              emissions cycles !! S i = Some h2 → h1 ≠ h2).
Proof.
  intros started recurring cycles.
  destruct (startChatStream_traced net cb st) as [Hs Hf].
  pose proof (runCycles_traced ticks started.1) as Hr.
  assert (gated (lastHash st) (emissions cycles)) as Hg.
  { unfold cycles. rewrite emissions_app.
    apply (traced_gated (setOnChatUpdate cb st) recurring.1).
    eapply traced_trans; eauto. }
  split; [apply runCycles_length|].
  split; [apply Forall_app; split; [done|apply runCycles_calls_once]|].
  split; [done|].
  intros i h1 h2. by apply gated_adjacent with (last := lastHash st).
Qed.

(** ** Fingerprint *)

Example hashString_empty : hashString [] = "0".
Proof. reflexivity. Qed.

Example hashString_a : hashString (codeUnits "a") = "2p".
Proof. vm_compute. reflexivity. Qed.

Example hashString_markup :
  hashString (codeUnits "<div id=cascade>hello world</div>") = "-l2iivx".
Proof. vm_compute. reflexivity. Qed.

(** The hash stays a signed 32-bit integer. *)
Lemma to_int32_range z : - 2 ^ 31 ≤ to_int32 z < 2 ^ 31.
Proof.
  unfold to_int32.
  pose proof (Z.mod_pos_bound (z + 2 ^ 31) (2 ^ 32) ltac:(lia)). lia.
Qed.

Lemma hash_step_range hash code : - 2 ^ 31 ≤ hash_step hash code < 2 ^ 31.
Proof. unfold hash_step. rewrite Z.land_diag. apply to_int32_range. Qed.

Lemma hash_loop_range str hash :
  - 2 ^ 31 ≤ hash < 2 ^ 31 → - 2 ^ 31 ≤ hash_loop str hash < 2 ^ 31.
Proof.
  unfold hash_loop. revert hash.
  induction str as [|code str IH]; intros hash Hh; [done|].
  simpl. apply IH, hash_step_range.
Qed.

(** Seven digits are enough for a 32-bit magnitude: more fuel does not
    change the digits. *)
Lemma radix36_fuel fuel extra n acc :
  (0 < fuel)%nat → 0 ≤ n < 36 ^ Z.of_nat fuel →
  radix36 (fuel + extra) n acc = radix36 fuel n acc.
Proof.
  revert n acc; induction fuel as [|fuel IH]; intros n acc Hpos Hn; [lia|].
  simpl. destruct (Z.eqb_spec (n / 36) 0) as [|Hne]; [done|].
  assert (0 < n / 36 < 36 ^ Z.of_nat fuel) as Hq.
  { rewrite Nat2Z.inj_succ, Z.pow_succ_r in Hn by lia.
    split; [|apply Z.div_lt_upper_bound; lia].
    pose proof (Z.div_pos n 36 ltac:(lia) ltac:(lia)). lia. }
  destruct fuel as [|fuel]; [simpl in Hq; lia|].
  apply IH; lia.
Qed.

Lemma hashString_fuel str extra :
  let hash := hash_loop str 0 in
  hashString str =
    if hash <? 0 then String "-"%char (radix36 (7 + extra) (- hash) EmptyString)
    else radix36 (7 + extra) hash EmptyString.
Proof.
  intros hash. unfold hashString, toString36. fold hash.
  pose proof (hash_loop_range str 0 ltac:(lia)) as Hr. fold hash in Hr.
  assert (36 ^ Z.of_nat 7 = 78364164096) as H36 by reflexivity.
  destruct (Z.ltb_spec hash 0).
  - f_equal. symmetry. apply radix36_fuel; lia.
  - symmetry. apply radix36_fuel; lia.
Qed.

Example includes_examples :
  includes "vscode-file://app/workbench.html?x" "workbench.html" = true ∧
  includes "workbench.htm" "workbench.html" = false ∧
  includes "" "" = true ∧ includes "Antigravity - main.js" "Antigravity" = true.
Proof. repeat split. Qed.

(** A cycle never hands over a chat whose fingerprint is [lastHash]. *)
Lemma poll_skips_last st chat :
  lastHash st = Some (hashString (html chat)) → chat ∉ calls (poll st).2.
Proof.
  intros Hl Hin.
  destruct (poll_gate st) as [(Hc & _)|(chat' & cb & Hc & _ & _ & Hne & _)];
    rewrite Hc in Hin.
  - by apply elem_of_nil in Hin.
  - apply list_elem_of_singleton in Hin. by subst.
Qed.

Lemma gated_htmls (last : option jsstring) (htmls : list jsstring) i a b :
  gated (hashString <$> last) (map hashString htmls) →
  (option_list last ++ htmls) !! i = Some a →
  (option_list last ++ htmls) !! S i = Some b →
  hashString a ≠ hashString b.
Proof.
  revert last i; induction htmls as [|h rest IH]; intros last i Hg Ha Hb.
  { destruct last, i; done. }
  destruct Hg as [Hne Hg]. destruct last as [s|]; simpl in *.
  - destruct i as [|i]; simpl in *.
    + injection Ha as <-. injection Hb as <-. congruence.
    + by apply (IH (Some h) i).
  - by apply (IH (Some h) i).
Qed.

(** C6. The fingerprint is a function of the code units of the string and
    of nothing else, and the gate of a cycle compares fingerprints by
    value: so identical html is never taken for a change. Over any run of
    cycles, from any state and whatever the page and the contexts do, the
    html handed to the consumer differs from the html handed over before
    it, the first one from the html whose fingerprint the run started
    with; a capture whose html equals the last one is never handed over,
    whatever else of the chat has changed. *)
Theorem fingerprint_deterministic
  (ticks : list (list ContextEvent)) (st : State) (last : option jsstring)
  (i : nat) (a b : jsstring) :
  remembers st last →
  let htmls := option_list last ++ map html (concat (map calls (runCycles ticks st).2)) in
  htmls !! i = Some a → htmls !! S i = Some b →
  a ≠ b ∧ hashString a ≠ hashString b.
Proof.
  intros Hlast htmls Ha Hb. subst htmls.
  pose proof (traced_gated _ _ _ (runCycles_traced ticks st)) as Hg.
  unfold emissions in Hg. rewrite Hlast in Hg.
  rewrite <- (map_map html hashString) in Hg.
  pose proof (gated_htmls last _ i a b Hg Ha Hb) as Hne.
  split; [|exact Hne]. intros ->. by apply Hne.
Qed.

(** The run of the witness: the core has handed over [chatOne]; the next
    two cycles both capture [chatTwo], whose html differs; it is handed
    over once. *)
Lemma fingerprint_deterministic_witness :
  remembers running (Some (html chatOne)) ∧
  concat (map calls (runCycles [[]; []] running).2) = [chatTwo] ∧
  (let htmls := option_list (Some (html chatOne)) ++
                map html (concat (map calls (runCycles [[]; []] running).2)) in
   htmls !! 0%nat = Some (html chatOne) ∧ htmls !! 1%nat = Some (html chatTwo) ∧
   html chatOne ≠ html chatTwo ∧ hashString (html chatOne) ≠ hashString (html chatTwo)).
Proof.
  assert (remembers running (Some (html chatOne))) as Hlast by reflexivity.
  split; [exact Hlast|]. split; [reflexivity|].
  split; [reflexivity|]. split; [reflexivity|].
  exact (fingerprint_deterministic [[]; []] running (Some (html chatOne)) 0
           (html chatOne) (html chatTwo) Hlast eq_refl eq_refl).
Defined.

(** ** Context locator *)

Lemma searchContexts_none_keeps_cache ctxs cdp :
  (searchContexts ctxs cdp).1 = None →
  cascadeContextId (searchContexts ctxs cdp).2 = cascadeContextId cdp.
Proof.
  revert cdp; induction ctxs as [|ctx rest IH]; intros cdp; simpl; [done|].
  destruct (replyProbe _ _ _); simpl; intros H; try done.
  - by rewrite IH.
  - by rewrite IH.
Qed.

(** The probe of the cached context throws: the cache is cleared before
    the scan. *)
Lemma findCascadeContext_throw_clears cdp cached :
  truthy (cascadeContextId cdp) = Some cached →
  replyProbe (peer cdp) (idCounter cdp) cached = ProbeThrows →
  findCascadeContext cdp =
    searchContexts (contexts cdp)
      (setCascadeContextId None (evaluateProbe cdp cached).2).
Proof.
  intros Ht Hr. unfold findCascadeContext. rewrite Ht. simpl. by rewrite Hr.
Qed.

(** The probe of the cached context reports [found: true]: the cached id
    is returned. *)
Lemma findCascadeContext_found_cached cdp cached :
  truthy (cascadeContextId cdp) = Some cached →
  replyProbe (peer cdp) (idCounter cdp) cached = ProbeFound →
  findCascadeContext cdp = (Some cached, (evaluateProbe cdp cached).2).
Proof.
  intros Ht Hr. unfold findCascadeContext. rewrite Ht. simpl. by rewrite Hr.
Qed.

(** The probe of the cached context reports [found: false]: the scan runs
    with the cache still in place, and a scan that finds nothing leaves the
    stale id in the cache. *)
Lemma findCascadeContext_missing_keeps_cache cdp cached :
  truthy (cascadeContextId cdp) = Some cached →
  replyProbe (peer cdp) (idCounter cdp) cached = ProbeMissing →
  findCascadeContext cdp = searchContexts (contexts cdp) (evaluateProbe cdp cached).2 ∧
  ((findCascadeContext cdp).1 = None →
   cascadeContextId (findCascadeContext cdp).2 = cascadeContextId cdp).
Proof.
  intros Ht Hr. unfold findCascadeContext. rewrite Ht. simpl. rewrite Hr.
  split; [done|]. intros Hn. by rewrite searchContexts_none_keeps_cache.
Qed.

(** C2, at the failing input: the cache holds context 7, the probe in it
    reports [found: false] and so do the probes of the scan. The call
    returns [null] after three evaluations and the cache still holds 7: it
    was not cleared. *)
Theorem stale_cache_survives_missing_probe :
  (findCascadeContext staleSession).1 = None ∧
  cascadeContextId (findCascadeContext staleSession).2 = Some 7 ∧
  idCounter (findCascadeContext staleSession).2 = 5%nat.
Proof. repeat split. Qed.

(** ** Discovery *)

Lemma isWorkbench_matches t keep : isWorkbench t = Some keep → keep = matchesHeuristic t.
Proof.
  unfold isWorkbench, matchesHeuristic.
  destruct (url t) as [| |?|?|u]; simpl; try done;
    destruct (title t) as [| |?|?|ti]; simpl; try done;
    repeat match goal with
           | |- context [includes ?a ?b] => destruct (includes a b); simpl; try done
           end; congruence.
Qed.

Lemma isWorkbench_textual t :
  textual (url t) = true → textual (title t) = true →
  isWorkbench t = Some (matchesHeuristic t).
Proof.
  unfold isWorkbench, matchesHeuristic.
  destruct (url t) as [| |?|?|u]; simpl; try done;
    destruct (title t) as [| |?|?|ti]; simpl; try done; intros _ _;
    repeat match goal with
           | |- context [includes ?a ?b] => destruct (includes a b); simpl; try done
           end.
Qed.

(** The filter of the code, when it does not throw, keeps what the
    heuristic keeps. *)
Lemma filterWorkbenches_kept entries kept :
  filterWorkbenches entries = Some kept → kept = List.filter matchesHeuristic entries.
Proof.
  revert kept; induction entries as [|t rest IH]; intros kept; simpl; [congruence|].
  destruct (isWorkbench t) as [keep|] eqn:Hw; [|done].
  destruct (filterWorkbenches rest) as [kept'|]; [|done].
  intros [= <-]. rewrite (IH kept' eq_refl), <- (isWorkbench_matches _ _ Hw). done.
Qed.

Lemma filterWorkbenches_textual entries :
  (∀ t, In t entries → textual (url t) = true ∧ textual (title t) = true) →
  filterWorkbenches entries = Some (List.filter matchesHeuristic entries).
Proof.
  induction entries as [|t rest IH]; intros Hall; simpl; [done|].
  destruct (Hall t (or_introl eq_refl)) as [Hu Ht].
  rewrite (isWorkbench_textual t Hu Ht), IH by (intros; apply Hall; by right). done.
Qed.

(** One entry on which the filter throws takes the whole port with it. *)
Lemma filterWorkbenches_throws entries bad :
  In bad entries → isWorkbench bad = None → filterWorkbenches entries = None.
Proof.
  induction entries as [|t rest IH]; intros Hin Hbad; [done|]. simpl.
  destruct Hin as [->|Hin]; [by rewrite Hbad|].
  destruct (isWorkbench t); [|done]. by rewrite (IH Hin Hbad).
Qed.

Lemma probePort_probed listing targets port :
  probePort listing targets port = targets ++ probed listing port.
Proof.
  unfold probed, probePort.
  destruct (listing port) as [| |entries]; rewrite ?app_nil_r; try done.
  destruct (filterWorkbenches entries); by rewrite ?app_nil_r.
Qed.

(** What the code takes from a port: all that section 4.1 retains, or
    nothing. *)
Lemma probed_all_or_nothing listing port :
  probed listing port = retained listing port ∨ probed listing port = [].
Proof.
  unfold probed, probePort, retained.
  destruct (listing port) as [| |entries]; try by left.
  destruct (filterWorkbenches entries) as [kept|] eqn:Hf; [|by right].
  left. by rewrite (filterWorkbenches_kept _ _ Hf).
Qed.

Lemma fold_probePort listing ports targets :
  fold_left (probePort listing) ports targets = targets ++ flat_map (probed listing) ports.
Proof.
  revert targets; induction ports as [|p ports IH]; intros targets; simpl.
  - by rewrite app_nil_r.
  - rewrite IH, probePort_probed. by rewrite app_assoc.
Qed.

Lemma findTargets_probed listing : findTargets listing = flat_map (probed listing) CDP_PORTS.
Proof. unfold findTargets. by rewrite fold_probePort. Qed.

(** On listings as the DevTools protocol delivers them (the [url] and
    [title] of an entry a string, or absent), discovery is what section 4.1
    says: the entries that match the heuristic, each tagged with its port,
    port by port in the order of [CDP_PORTS] and in listing order within a
    port; a port that is unresponsive or does not answer with a list
    contributes nothing. *)
Lemma discovery_exact_when_typed (listing : Z → PortResponse) :
  wellTyped listing → findTargets listing = discovery_spec listing.
Proof.
  intros Htyped. rewrite findTargets_probed. unfold discovery_spec.
  apply flat_map_ext. intros port. unfold probed, probePort, retained.
  destruct (listing port) as [| |entries] eqn:Hl; try done.
  rewrite filterWorkbenches_textual; [done|]. intros t Ht. by apply (Htyped port entries).
Qed.

(** Whatever each port answers, [findTargets] returns a list: a part of
    what section 4.1 describes, in the same order; the empty list when no
    port answers with a list. *)
Lemma discovery_sublist (listing : Z → PortResponse) :
  sublist (findTargets listing) (discovery_spec listing) ∧
  findTargets (fun _ => Unreachable) = [] ∧
  findTargets (fun _ => NotAList) = [].
Proof.
  split; [|by split]. rewrite findTargets_probed. unfold discovery_spec.
  induction CDP_PORTS as [|port ports IH]; [done|]. simpl.
  destruct (probed_all_or_nothing listing port) as [->| ->].
  - by apply sublist_app.
  - by apply sublist_inserts_l.
Qed.

Example discovery_scenario :
  findTargets scenarioListing = [mkTagged workbenchPage 9000] ∧
  discovery_spec scenarioListing = [mkTagged workbenchPage 9000].
Proof. split; reflexivity. Qed.


(** The same for every listing: a port with one entry on which the filter
    throws contributes nothing, whatever else it lists. *)
Lemma discovery_port_dropped (listing : Z → PortResponse) (p : Z) entries bad :
  listing p = Listing entries → In bad entries → isWorkbench bad = None →
  ∀ x, x ∈ findTargets listing → port x ≠ p.
Proof.
  intros Hl Hin Hbad x Hx. rewrite findTargets_probed in Hx.
  apply list_elem_of_In, in_flat_map in Hx as (q & _ & Hx). intros <-.
  unfold probed, probePort in Hx.
  destruct (listing q) as [| |entries'] eqn:Hq; try done.
  destruct (filterWorkbenches entries') as [kept|] eqn:Hf; [|done].
  apply in_map_iff in Hx as (t & <- & _). simpl in Hl. rewrite Hq in Hl.
  injection Hl as ->. by rewrite (filterWorkbenches_throws _ _ Hin Hbad) in Hf.
Qed.

(** ** Starting and stopping *)

Lemma searchContexts_ws h ctxs cdp :
  (searchContexts ctxs (mkCdp h (peer cdp) (idCounter cdp) (contexts cdp) (cascadeContextId cdp))).1
  = (searchContexts ctxs cdp).1.
Proof.
  revert cdp; induction ctxs as [|ctx rest IH]; intros cdp; simpl; [done|].
  destruct (replyProbe _ _ _); simpl; try done.
  - apply (IH (mkCdp (ws cdp) (peer cdp) (S (idCounter cdp)) (contexts cdp)
                 (cascadeContextId cdp))).
  - apply (IH (mkCdp (ws cdp) (peer cdp) (S (idCounter cdp)) (contexts cdp)
                 (cascadeContextId cdp))).
Qed.

Lemma fresh_session_locate h page announced :
  (findCascadeContext (mkCdp h page 2 announced None)).1
  = (findCascadeContext (mkCdp 0 page 2 announced None)).1.
Proof.
  unfold findCascadeContext. simpl.
  apply (searchContexts_ws h announced (mkCdp 0 page 2 announced None)).
Qed.

(** When no target hosts the chat root the loop fails without running a
    cycle and the four module variables are as before. *)
Lemma tryTargets_no_host net targets st log :
  (∀ target, target ∈ targets → hostsChatRoot net target = false) →
  let r := tryTargets net targets st log in
  (∃ error, r.2.1 = Failed error) ∧ r.2.2 = log ∧
  connection r.1 = connection st ∧ onChatUpdate r.1 = onChatUpdate st ∧
  pollInterval r.1 = pollInterval st ∧ lastHash r.1 = lastHash st ∧
  activeTimers r.1 = activeTimers st.
Proof.
  revert st log; induction targets as [|target rest IH]; intros st log Hno; simpl.
  { repeat split; try done. by eexists. }
  assert (hostsChatRoot net target = false) as Hh by (apply Hno; left).
  assert (∀ t, t ∈ rest → hostsChatRoot net t = false) as Hrest
    by (intros; apply Hno; by right).
  unfold hostsChatRoot in Hh. unfold connectCDP.
  destruct (dial net (webSocketDebuggerUrl (entry target))) as [| |page announced].
  - by apply IH.
  - apply (IH (openSocket st) log Hrest).
  - rewrite <- (fresh_session_locate (nextHandle st)) in Hh.
    destruct (findCascadeContext (mkCdp (nextHandle st) page 2 announced None))
      as [cid cdp1]. simpl in Hh.
    destruct (truthy cid); [done|].
    apply (IH (closeSocket (ws cdp1) (openSocket st)) log Hrest).
Qed.

Lemma startChatStream_no_host net cb st :
  (findTargets (listing net) = [] ∨
   ∀ target, target ∈ findTargets (listing net) → hostsChatRoot net target = false) →
  let r := startChatStream net cb st in
  (∃ error, r.2.1 = Failed error) ∧
  connection r.1 = connection st ∧ onChatUpdate r.1 = cb ∧
  pollInterval r.1 = pollInterval st ∧ lastHash r.1 = lastHash st.
Proof.
  intros H. unfold startChatStream.
  destruct (findTargets (listing net)) as [|t targets] eqn:Hf.
  { repeat split; try done. by eexists. }
  destruct H as [?|H]; [done|].
  pose proof (tryTargets_no_host net (t :: targets) (setOnChatUpdate cb st) [] H)
    as (? & ? & ? & ? & ? & ? & ?).
  by repeat split.
Qed.

(** C5. When discovery finds no target, or no target hosts the chat root,
    [startChatStream] returns a result with [success: false] (it does not
    throw: its promise is not rejected on these paths), and a core that was
    not streaming is still not streaming. *)
Theorem start_without_chat_root_fails (net : Net) (cb : option Callback) (st : State) :
  isStreaming st = false →
  (findTargets (listing net) = [] ∨
   ∀ target, target ∈ findTargets (listing net) → hostsChatRoot net target = false) →
  success (startChatStream net cb st).2.1 = false ∧
  (∃ error, (startChatStream net cb st).2.1 = Failed error) ∧
  isStreaming (startChatStream net cb st).1 = false.
Proof.
  intros Hs H.
  destruct (startChatStream_no_host net cb st H) as ([error Hr] & Hc & _ & Hp & _).
  split; [by rewrite Hr|]. split; [by exists error|].
  unfold isStreaming in *. by rewrite Hc, Hp.
Qed.

(** C10. [startChatStream] stores the callback before discovery: after a
    start that fails because there is no target or no chat root, the
    registered callback is the new one, while the connection, the schedule
    and the last fingerprint are as before. *)
Theorem failed_start_replaces_callback (net : Net) (cb : option Callback) (st : State) :
  (findTargets (listing net) = [] ∨
   ∀ target, target ∈ findTargets (listing net) → hostsChatRoot net target = false) →
  success (startChatStream net cb st).2.1 = false ∧
  onChatUpdate (startChatStream net cb st).1 = cb ∧
  connection (startChatStream net cb st).1 = connection st ∧
  pollInterval (startChatStream net cb st).1 = pollInterval st ∧
  lastHash (startChatStream net cb st).1 = lastHash st.
Proof.
  intros H.
  destruct (startChatStream_no_host net cb st H) as ([error Hr] & Hc & Hcb & Hp & Hl).
  rewrite Hr. by repeat split.
Qed.

(** *** Handles that were in use before a start *)

Lemma elem_of_added (S : gset nat) (h n : nat) : h ≠ n → h ∈ S ∪ {[n]} ↔ h ∈ S.
Proof. set_solver. Qed.

Lemma elem_of_added_removed (S : gset nat) (h n : nat) :
  h ≠ n → h ∈ (S ∪ {[n]}) ∖ {[n]} ↔ h ∈ S.
Proof. set_solver. Qed.

Lemma tryTargets_prior net targets st log h :
  (h < nextHandle st)%nat →
  let r := tryTargets net targets st log in
  (h ∈ openSockets r.1 ↔ h ∈ openSockets st) ∧
  (h ∈ activeTimers r.1 ↔ h ∈ activeTimers st) ∧
  (nextHandle st ≤ nextHandle r.1)%nat.
Proof.
  revert st log; induction targets as [|target rest IH]; intros st log Hh; simpl.
  { repeat split; auto. }
  assert (h ≠ nextHandle st) as Hne1 by lia.
  assert (h ≠ S (nextHandle st)) as Hne2 by lia.
  unfold connectCDP.
  destruct (dial net (webSocketDebuggerUrl (entry target))) as [| |page announced].
  { by apply IH. }
  { destruct (IH (openSocket st) log) as (H1 & H2 & H3); [simpl; lia|].
    rewrite H1, H2. simpl in H3 |- *.
    split; [by apply elem_of_added|]. split; [done|lia]. }
  set (cdp := mkCdp (nextHandle st) page 2 announced None).
  unfold openSocket. set (st1 := mkState _ _ _ _ _ _ _).
  pose proof (findCascadeContext_frame cdp) as (Hws & _).
  destruct (findCascadeContext cdp) as [cid cdp1]. simpl in Hws.
  destruct (truthy cid) as [id|].
  - pose proof (poll_frame (setConnection (Some cdp1) st1)) as (_ & _ & Hso & Hti & Hn & _).
    destruct (poll (setConnection (Some cdp1) st1)) as [st2 c]. simpl in Hso, Hti, Hn.
    destruct (rejected c); [destruct (nullish c)|].
    + simpl. rewrite Hso, Hti, Hn. subst st1. simpl.
      split; [by apply elem_of_added|]. split; [done|lia].
    + destruct (IH st2 (log ++ [c])) as (H1 & H2 & H3); [rewrite Hn; simpl; lia|].
      rewrite H1, H2, Hso, Hti. rewrite Hn in H3. subst st1. simpl in H3 |- *.
      split; [by apply elem_of_added|]. split; [done|lia].
    + simpl. rewrite Hso, Hti, Hn. subst st1. simpl.
      split; [by apply elem_of_added|]. split; [by apply elem_of_added|lia].
  - destruct (IH (closeSocket (ws cdp1) st1) log) as (H1 & H2 & H3); [simpl; lia|].
    rewrite H1, H2. subst st1. simpl in H3 |- *. rewrite <- Hws in H3 |- *.
    split; [by apply elem_of_added_removed|]. split; [done|lia].
Qed.

Lemma tryTargets_success net targets st log :
  let r := tryTargets net targets st log in
  success r.2.1 = true →
  ∃ new t, connection r.1 = Some new ∧ pollInterval r.1 = Some t ∧
           (nextHandle st ≤ ws new)%nat ∧ (nextHandle st ≤ t)%nat ∧
           ws new ∈ openSockets r.1 ∧ t ∈ activeTimers r.1.
Proof.
  revert st log; induction targets as [|target rest IH]; intros st log; simpl; [done|].
  unfold connectCDP.
  destruct (dial net (webSocketDebuggerUrl (entry target))) as [| |page announced].
  { by apply IH. }
  { intros Hs. destruct (IH (openSocket st) log Hs) as (new & t & H1 & H2 & H3 & H4 & H5).
    exists new, t. simpl in H3, H4. destruct H5 as [H5 H6]. repeat split; try done; lia. }
  set (cdp := mkCdp (nextHandle st) page 2 announced None).
  unfold openSocket. set (st1 := mkState _ _ _ _ _ _ _).
  pose proof (findCascadeContext_frame cdp) as (Hws & _).
  destruct (findCascadeContext cdp) as [cid cdp1]. simpl in Hws.
  destruct (truthy cid) as [id|].
  - pose proof (poll_frame (setConnection (Some cdp1) st1))
      as (_ & _ & Hso & Hti & Hn & Hconn).
    destruct (poll (setConnection (Some cdp1) st1)) as [st2 c].
    simpl in Hso, Hti, Hn, Hconn.
    destruct (rejected c); [destruct (nullish c); [done|]|].
    + intros Hs. destruct (IH st2 (log ++ [c]) Hs) as (new & t & H1 & H2 & H3 & H4 & H5).
      exists new, t. rewrite Hn in H3, H4. subst st1. simpl in H3, H4.
      destruct H5 as [H5 H6]. repeat split; try done; lia.
    + intros _. inversion Hconn as [? new (Hw & _) Ha Hb|]; subst.
      exists new, (nextHandle st2). simpl. rewrite <- Hb, Hso, Hti, Hn. simpl.
      rewrite <- Hw, <- Hws. simpl.
      split; [done|]. split; [done|]. split; [lia|]. split; [lia|].
      split; apply elem_of_union_r, elem_of_singleton; reflexivity.
  - intros Hs.
    destruct (IH (closeSocket (ws cdp1) st1) log Hs) as (new & t & H1 & H2 & H3 & H4 & H5).
    exists new, t. subst st1. simpl in H3, H4.
    destruct H5 as [H5 H6]. repeat split; try done; lia.
Qed.

Lemma start_without_chat_root_fails_witness :
  isStreaming initial = false ∧
  (findTargets (listing rootlessNet) = [] ∨
   ∀ target, target ∈ findTargets (listing rootlessNet) →
             hostsChatRoot rootlessNet target = false) ∧
  success (startChatStream rootlessNet (Some cbQuiet) initial).2.1 = false ∧
  (∃ error, (startChatStream rootlessNet (Some cbQuiet) initial).2.1 = Failed error) ∧
  isStreaming (startChatStream rootlessNet (Some cbQuiet) initial).1 = false.
Proof.
  assert (∀ target, target ∈ findTargets (listing rootlessNet) →
                    hostsChatRoot rootlessNet target = false) as Hno.
  { intros target Hin. apply list_elem_of_singleton in Hin. subst. reflexivity. }
  split; [reflexivity|]. split; [right; exact Hno|].
  apply (start_without_chat_root_fails rootlessNet (Some cbQuiet) initial);
    [reflexivity|right; exact Hno].
Defined.

Lemma failed_start_replaces_callback_witness :
  (findTargets (listing deadNet) = [] ∨
   ∀ target, target ∈ findTargets (listing deadNet) → hostsChatRoot deadNet target = false) ∧
  onChatUpdate running = Some cbQuiet ∧
  success (startChatStream deadNet (Some cbPicky) running).2.1 = false ∧
  onChatUpdate (startChatStream deadNet (Some cbPicky) running).1 = Some cbPicky ∧
  connection (startChatStream deadNet (Some cbPicky) running).1 = connection running ∧
  pollInterval (startChatStream deadNet (Some cbPicky) running).1 = pollInterval running ∧
  lastHash (startChatStream deadNet (Some cbPicky) running).1 = lastHash running.
Proof.
  split; [left; reflexivity|]. split; [reflexivity|].
  apply (failed_start_replaces_callback deadNet (Some cbPicky) running).
  left. reflexivity.
Defined.

(** [stopChatStream] leaves the core idle, whatever it was, and a second
    call changes nothing. *)
Lemma stop_not_streaming st :
  isStreaming (stopChatStream st) = false ∧
  stopChatStream (stopChatStream st) = stopChatStream st.
Proof.
  destruct st as [[cdp|] cb [t|] last sockets timers next]; by split.
Qed.

(** What [stopChatStream] releases: the socket of [connection] and the
    timer of [pollInterval], nothing else. *)
Lemma stop_resources st :
  openSockets (stopChatStream st) =
    match connection st with
    | Some cdp => openSockets st ∖ {[ws cdp]}
    | None => openSockets st
    end ∧
  activeTimers (stopChatStream st) =
    match pollInterval st with
    | Some t => activeTimers st ∖ {[t]}
    | None => activeTimers st
    end.
Proof. by destruct st as [[cdp|] cb [t|] last sockets timers next]. Qed.

(** *** A second start *)

(** Started again while it is running on [liveNet], the core leaves the
    first socket (handle 0) open and the first timer (handle 1)
    scheduled. *)
Lemma restart_closes_prior_refuted : ¬ restartClosesPrior liveNet (Some cbQuiet) running.
Proof.
  intros H.
  destruct (H (mkCdp 0 livePage 6 [1; 3] (Some 3)) 1%nat eq_refl eq_refl) as [Hs _].
  apply Hs. apply (bool_decide_unpack _). vm_compute. exact I.
Qed.

Example restart_has_two_sessions :
  let st' := (startChatStream liveNet (Some cbQuiet) running).1 in
  isStreaming running = true ∧
  openSockets running = {[ 0%nat ]} ∧ activeTimers running = {[ 1%nat ]} ∧
  success (startChatStream liveNet (Some cbQuiet) running).2.1 = true ∧
  size (openSockets st') = 2%nat ∧ size (activeTimers st') = 2%nat.
Proof. vm_compute. repeat split. Qed.

(** [startChatStream] has no step that closes or cancels: called while a
    session is running, it leaves the prior socket open and the prior
    timer scheduled whatever the outcome; a successful start opens a
    further socket and schedules a further timer and overwrites
    [connection] and [pollInterval] with those. *)
Lemma restart_keeps_prior_session
  (net : Net) (cb : option Callback) (st : State) (old : Cdp) (t : nat) :
  wellFormed st →
  connection st = Some old → pollInterval st = Some t →
  ws old ∈ openSockets st → t ∈ activeTimers st →
  let r := startChatStream net cb st in
  ws old ∈ openSockets r.1 ∧ t ∈ activeTimers r.1 ∧
  (success r.2.1 = true →
   ∃ new t', connection r.1 = Some new ∧ pollInterval r.1 = Some t' ∧
             ws new ≠ ws old ∧ t' ≠ t ∧
             ws new ∈ openSockets r.1 ∧ t' ∈ activeTimers r.1).
Proof.
  intros [Hwf1 Hwf2] Hc Hp Hso Hti r. subst r. unfold startChatStream.
  pose proof (Hwf1 _ Hso) as Hlt1. pose proof (Hwf2 _ Hti) as Hlt2.
  destruct (findTargets (listing net)) as [|target targets]; [by repeat split|].
  set (st0 := setOnChatUpdate cb st).
  destruct (tryTargets_prior net (target :: targets) st0 [] (ws old) Hlt1) as (H1 & _ & _).
  destruct (tryTargets_prior net (target :: targets) st0 [] t Hlt2) as (_ & H2 & _).
  split; [by apply H1|]. split; [by apply H2|].
  intros Hs.
  destruct (tryTargets_success net (target :: targets) st0 [] Hs)
    as (new & t' & ? & ? & Hle1 & Hle2 & ? & ?).
  exists new, t'. subst st0. simpl in Hle1, Hle2, Hlt1, Hlt2.
  repeat split; try done; lia.
Qed.

(** C3, at the failing inputs: every state in which the stream is running
    and every network on which a second start succeeds. The second start
    overwrites [connection] and [pollInterval] without closing the prior
    socket or cancelling the prior timer; from then on no variable of the
    module refers to them, and [stopChatStream], which releases what the
    variables refer to, leaves them behind: after the stop the core is
    idle, and the prior socket is still open and the prior timer still
    scheduled. *)
Theorem restart_leaks_prior_session
  (net : Net) (cb : option Callback) (st : State) (old : Cdp) (t : nat) :
  wellFormed st →
  connection st = Some old → pollInterval st = Some t →
  ws old ∈ openSockets st → t ∈ activeTimers st →
  success (startChatStream net cb st).2.1 = true →
  let st' := (startChatStream net cb st).1 in
  ws old ∈ openSockets st' ∧ t ∈ activeTimers st' ∧
  (ws <$> connection st') ≠ Some (ws old) ∧ pollInterval st' ≠ Some t ∧
  isStreaming (stopChatStream st') = false ∧
  ws old ∈ openSockets (stopChatStream st') ∧
  t ∈ activeTimers (stopChatStream st').
Proof.
  intros Hwf Hc Hp Hso Hti Hs st'. subst st'.
  destruct (restart_keeps_prior_session net cb st old t Hwf Hc Hp Hso Hti)
    as (Hso' & Hti' & Hnew).
  destruct (Hnew Hs) as (new & t' & Hc' & Hp' & Hne1 & Hne2 & _).
  destruct (stop_resources (startChatStream net cb st).1) as [Hsr Htr].
  rewrite Hsr, Htr, Hc', Hp'. simpl.
  split; [done|]. split; [done|]. split; [congruence|]. split; [congruence|].
  split; [apply stop_not_streaming|].
  split; apply elem_of_difference; (split; [done|]); rewrite elem_of_singleton; congruence.
Qed.

Lemma restart_leaks_prior_session_witness :
  wellFormed running ∧
  connection running = Some (mkCdp 0 livePage 6 [1; 3] (Some 3)) ∧
  pollInterval running = Some 1%nat ∧
  0%nat ∈ openSockets running ∧ 1%nat ∈ activeTimers running ∧
  success (startChatStream liveNet (Some cbQuiet) running).2.1 = true ∧
  (let st' := (startChatStream liveNet (Some cbQuiet) running).1 in
   0%nat ∈ openSockets st' ∧ 1%nat ∈ activeTimers st' ∧
   (ws <$> connection st') ≠ Some 0%nat ∧ pollInterval st' ≠ Some 1%nat ∧
   isStreaming (stopChatStream st') = false ∧
   0%nat ∈ openSockets (stopChatStream st') ∧
   1%nat ∈ activeTimers (stopChatStream st')).
Proof.
  assert (wellFormed running) as Hwf.
  { split; apply (bool_decide_unpack _); vm_compute; exact I. }
  assert (0%nat ∈ openSockets running) as Hso
    by (apply (bool_decide_unpack _); vm_compute; exact I).
  assert (1%nat ∈ activeTimers running) as Hti
    by (apply (bool_decide_unpack _); vm_compute; exact I).
  split; [exact Hwf|]. split; [reflexivity|]. split; [reflexivity|].
  split; [exact Hso|]. split; [exact Hti|]. split; [reflexivity|].
  exact (restart_leaks_prior_session liveNet (Some cbQuiet) running
           (mkCdp 0 livePage 6 [1; 3] (Some 3)) 1%nat Hwf eq_refl eq_refl Hso Hti eq_refl).
Defined.

(** *** Errors inside a cycle *)

(** Failures of the locate and extract stages are replies of the page
    ([ProbeThrows], [CaptureThrows], [CaptureError]); they never reject the
    cycle: with a consumer that does not throw, [poll] always resolves. *)
Lemma poll_resolves st :
  (∀ cb chat, onChatUpdate st = Some cb → cbThrows cb chat = false) →
  rejected (poll st).2 = false.
Proof.
  intros Hcb.
  destruct (poll_gate st) as [(_ & Hr & _)|(chat & cb & _ & Ho & Hr & _)]; [done|].
  rewrite Hr. by apply Hcb.
Qed.

(** A cycle is rejected exactly when the consumer throws, and by then
    [lastHash] already holds the fingerprint of the chat it was given. *)
Lemma poll_rejected st :
  rejected (poll st).2 = true →
  ∃ chat cb, calls (poll st).2 = [chat] ∧ onChatUpdate st = Some cb ∧
             cbThrows cb chat = true ∧
             lastHash st ≠ Some (hashString (html chat)) ∧
             lastHash (poll st).1 = Some (hashString (html chat)).
Proof.
  intros Hrej.
  destruct (poll_gate st) as [(_ & Hr & _)|(chat & cb & Hc & Ho & Hr & Hne & Hl)];
    [congruence|].
  exists chat, cb. repeat split; try done. congruence.
Qed.

(** C4, at the failing input: a running stream whose consumer throws on
    the second snapshot. The cycle that captures [chatTwo] is rejected (the
    exception leaves [poll]), and it is not a skipped cycle: [lastHash] has
    moved to the fingerprint of [chatTwo], so the next cycle, capturing
    [chatTwo] again, hands nothing over. In the initial cycle of
    [startChatStream] the same exception is taken for a failed target: the
    start reports failure with [connection] set, the socket open and no
    timer. *)
Theorem throwing_consumer_not_isolated :
  rejected (poll runningPicky).2 = true ∧
  calls (poll runningPicky).2 = [chatTwo] ∧
  lastHash runningPicky = Some "-1z0h9f" ∧
  lastHash (poll runningPicky).1 = Some "4srfcz" ∧
  calls (poll (poll runningPicky).1).2 = [] ∧
  success (startChatStream liveNet (Some cbThrowing) initial).2.1 = false ∧
  (ws <$> connection (startChatStream liveNet (Some cbThrowing) initial).1) = Some 0%nat ∧
  pollInterval (startChatStream liveNet (Some cbThrowing) initial).1 = None ∧
  size (openSockets (startChatStream liveNet (Some cbThrowing) initial).1) = 1%nat.
Proof. vm_compute. repeat split. Qed.

(** ** One-shot snapshot *)

Lemma wellFormed_open st : wellFormed st → wellFormed (openSocket st).
Proof.
  intros [H1 H2]. split; intros h Hh; simpl in *.
  - apply elem_of_union in Hh as [Hh|Hh].
    + specialize (H1 h Hh). simpl in H1. lia.
    + apply elem_of_singleton in Hh. lia.
  - specialize (H2 h Hh). simpl in H2. lia.
Qed.

Lemma wellFormed_close h st : wellFormed st → wellFormed (closeSocket h st).
Proof.
  intros [H1 H2]. split; intros x Hx; simpl in *; [|by apply H2].
  apply elem_of_difference in Hx as [Hx _]. by apply H1.
Qed.

Lemma open_then_close st :
  wellFormed st →
  openSockets (closeSocket (nextHandle st) (openSocket st)) = openSockets st.
Proof.
  intros [H1 _]. simpl.
  assert (nextHandle st ∉ openSockets st) as Hfresh.
  { intros Hin. specialize (H1 _ Hin). simpl in H1. lia. }
  set_solver.
Qed.

(** What the one-shot loop leaves alone, and what it does to the sockets:
    none that was open is closed, none is opened under an old handle, and
    every session that [connectCDP] returned is closed again; a socket that
    opened in a [connectCDP] that threw stays open. *)
Lemma snapshotTargets_frame net targets st :
  wellFormed st →
  let st' := (snapshotTargets net targets st).1 in
  connection st' = connection st ∧ onChatUpdate st' = onChatUpdate st ∧
  pollInterval st' = pollInterval st ∧ lastHash st' = lastHash st ∧
  activeTimers st' = activeTimers st ∧
  (∀ h, (h < nextHandle st)%nat → h ∈ openSockets st' ↔ h ∈ openSockets st) ∧
  (nextHandle st ≤ nextHandle st')%nat ∧ wellFormed st' ∧
  (settles net → openSockets st' = openSockets st).
Proof.
  revert st; induction targets as [|target rest IH]; intros st Hwf; simpl.
  { split_and!; done. }
  unfold connectCDP, settles.
  destruct (dial net (webSocketDebuggerUrl (entry target))) as [| |page announced] eqn:Hd.
  { by apply IH. }
  { destruct (IH _ (wellFormed_open st Hwf)) as (? & ? & ? & ? & ? & Hold & Hn & ? & _).
    simpl in Hn. split_and!; try done; try lia.
    - intros h Hh. rewrite Hold by (simpl; lia). simpl. apply elem_of_added. lia.
    - intros Hs. by destruct (Hs (webSocketDebuggerUrl (entry target))). }
  set (cdp := mkCdp (nextHandle st) page 2 announced None).
  pose proof (findCascadeContext_frame cdp) as (Hws & _).
  destruct (findCascadeContext cdp) as [cid cdp1]. simpl in Hws.
  assert (wellFormed (closeSocket (nextHandle st) (openSocket st))) as Hwf'
    by by apply wellFormed_close, wellFormed_open.
  destruct (truthy cid) as [id|].
  - pose proof (captureChat_frame cdp1 id) as (Hws' & _).
    destruct (captureChat cdp1 id) as [chat cdp2]. simpl in Hws'.
    rewrite <- Hws', <- Hws. change (ws cdp) with (nextHandle st).
    cbn [fst]. split_and!; try done.
    + intros h Hh. by rewrite open_then_close.
    + simpl. lia.
    + intros _. by apply open_then_close.
  - rewrite <- Hws. change (ws cdp) with (nextHandle st).
    destruct (IH _ Hwf') as (? & ? & ? & ? & ? & Hold & Hn & ? & Heq).
    simpl in Hn. split_and!; try done; try lia.
    + intros h Hh. rewrite Hold by (simpl; lia). by rewrite open_then_close.
    + intros Hs. rewrite (Heq Hs). by apply open_then_close.
Qed.

(** What [getChatSnapshot] leaves alone, for every state and network: the
    module still refers to the same connection (same socket, peer and
    context list; the request counter and the context cache of the session
    may have moved), and the schedule, the last fingerprint and the callback
    are unchanged; no timer is started or cancelled; no socket that was open
    is closed. When no [connectCDP] throws with its socket open, the set of
    open sockets is as before. *)
Lemma snapshot_frame (net : Net) (st : State) :
  wellFormed st →
  let st' := (getChatSnapshot net st).1 in
  option_Forall2 sameSession (connection st) (connection st') ∧
  pollInterval st' = pollInterval st ∧
  lastHash st' = lastHash st ∧
  onChatUpdate st' = onChatUpdate st ∧
  activeTimers st' = activeTimers st ∧
  openSockets st ⊆ openSockets st' ∧
  (settles net → openSockets st' = openSockets st).
Proof.
  intros Hwf. unfold getChatSnapshot.
  destruct (connection st) as [cdp|] eqn:Hc.
  - pose proof (findCascadeContext_frame cdp) as Hf.
    destruct (findCascadeContext cdp) as [cid cdp1]. simpl in Hf.
    destruct (truthy cid) as [id|]; [|simpl; split_and!; try done; by constructor].
    pose proof (captureChat_frame cdp1 id) as Hk.
    destruct (captureChat cdp1 id) as [chat cdp2]. simpl in *.
    split_and!; try done. constructor. by eapply sameSession_trans.
  - destruct (snapshotTargets_frame net (findTargets (listing net)) st Hwf)
      as (H1 & ? & ? & ? & ? & Hold & _ & _ & Heq).
    simpl. rewrite H1, Hc. split_and!; try done; [constructor|].
    intros h Hh. apply Hold; [|done]. destruct Hwf as [Hwf _]. by apply Hwf.
Qed.

(** The one-shot path on a core that is not streaming: a snapshot comes
    back and the state is the initial one again but for the handle
    counter. *)
Example snapshot_ephemeral :
  (getChatSnapshot liveNet initial).2 = Some chatOne ∧
  connection (getChatSnapshot liveNet initial).1 = None ∧
  isStreaming (getChatSnapshot liveNet initial).1 = false ∧
  size (openSockets (getChatSnapshot liveNet initial).1) = 0%nat.
Proof. vm_compute. repeat split. Qed.

(** C9, at the failing input: the core is not streaming, port 9222 lists
    two windows; the socket of the first opens but its [Runtime.enable] is
    rejected, the second hosts the chat. [connectCDP] throws for the first
    window without closing the socket it opened, and the [catch] of
    [getChatSnapshot] has no handle to it. The snapshot of the second
    window comes back and its socket (handle 1) is closed; the socket of
    the first (handle 0) is open after the call, and no variable of the
    module refers to it. A second call leaves a second one. *)
Theorem snapshot_leaks_broken_socket :
  let st' := (getChatSnapshot halfBrokenNet initial).1 in
  (getChatSnapshot halfBrokenNet initial).2 = Some chatOne ∧
  connection st' = None ∧ pollInterval st' = None ∧
  openSockets initial = ∅ ∧ openSockets st' = {[ 0%nat ]} ∧
  openSockets (getChatSnapshot halfBrokenNet st').1 = {[ 0%nat; 2%nat ]} ∧
  openSockets (stopChatStream st') = {[ 0%nat ]}.
Proof.
  cbv zeta. repeat split; try reflexivity;
    apply (bool_decide_unpack _); vm_compute; exact I.
Qed.

(** ** The capture script *)

Example capture_bare_terminal :
  captureMarkup plainBrowser bareTerminalDoc = bareTerminalDoc.
Proof. vm_compute. reflexivity. Qed.

Example capture_three_canvases :
  captureMarkup plainBrowser (terminalDoc 3) = cascadeOf [makePre plainBrowser 9 lsText].
Proof. vm_compute. reflexivity. Qed.


(** *** The terminal document with any number of canvas layers *)






























Lemma terminalTexts_recovered_aux (l : list Node) :
  ∀ (F : nat → Node → nat * string) (G : nat → Node → nat * Node),
    (∀ i c, F i c = ((G i c).1, terminalText (G i c).2)) →
    omap (fun item : nat * string =>
            if hasText item.2 then Some (item.1, trim item.2) else None)
         (imap F l)
    = omap (fun item : nat * Node => (fun text => (item.1, text)) <$> recovered item.2)
           (imap G l).
Proof.
  induction l as [|c l IH]; intros F G HFG; [done|].
  rewrite !imap_cons. cbn [omap list_omap].
  rewrite (IH (F ∘ S) (G ∘ S)) by (intros i c'; apply HFG).
  rewrite HFG. cbn [fst snd]. unfold recovered.
  by destruct (hasText (terminalText (G 0%nat c).2)).
Qed.

(** [terminalTexts] holds, for each terminal-like container in document
    order, what [recovered] yields for it. *)
Lemma terminalTexts_recovered cascade :
  terminalTexts cascade =
    omap (fun item : nat * Node => (fun text => (item.1, text)) <$> recovered item.2)
         (imap (fun i container => (i, container)) (querySelectorAll terminalSel cascade)).
Proof. unfold terminalTexts. by apply terminalTexts_recovered_aux. Qed.

(** The strategies on three containers: the accessibility layer wins over
    the visible rows; blank accessibility rows give way to the visible
    rows; style noise in both gives way to the [pre]. *)
Example strategy_order :
  recovered (Element 1 "div" [("class", "xterm")]
    [Element 2 "div" [("class", "xterm-accessibility")]
       [Element 3 "div" [("role", "listitem")] [Text "$ make"]];
     Element 4 "div" [("class", "xterm-rows")]
       [Element 5 "div" [] [Element 6 "span" [] [Text "stale"]]]]) = Some "$ make" ∧
  recovered (Element 1 "div" [("class", "terminal")]
    [Element 2 "div" [("class", "xterm-accessibility")]
       [Element 3 "div" [("role", "listitem")] [Text "   "]];
     Element 4 "div" [("class", "xterm-rows")]
       [Element 5 "div" [] [Element 6 "span" [] [Text " ok "]]]]) = Some "ok" ∧
  recovered (Element 1 "div" [("class", "Terminal")]
    [Element 2 "div" [("class", "xterm-accessibility")]
       [Element 3 "div" [("role", "listitem")] [Text "a { b }"]];
     Element 4 "pre" [] [Text "done"]]) = Some "done".
Proof. vm_compute. repeat split. Qed.

(** ** Reachable states are well formed *)

(** A step that closes sockets, cancels timers and hands out fresh
    handles keeps the state well formed. *)
Lemma wellFormed_step st st' :
  (∀ h, h ∈ openSockets st' →
        h ∈ openSockets st ∨ (nextHandle st ≤ h < nextHandle st')%nat) →
  (∀ t, t ∈ activeTimers st' →
        t ∈ activeTimers st ∨ (nextHandle st ≤ t < nextHandle st')%nat) →
  (nextHandle st ≤ nextHandle st')%nat →
  wellFormed st → wellFormed st'.
Proof.
  intros Hso Hti Hn [H1 H2]. split; intros h Hh.
  - destruct (Hso h Hh) as [Hold|?]; [|lia]. specialize (H1 h Hold). simpl in H1. lia.
  - destruct (Hti h Hh) as [Hold|?]; [|lia]. specialize (H2 h Hold). simpl in H2. lia.
Qed.

Lemma wellFormed_initial : wellFormed initial.
Proof. split; intros h Hh; by apply not_elem_of_empty in Hh. Qed.


Lemma wellFormed_deliverAll evs st : wellFormed st → wellFormed (deliverAll evs st).
Proof. unfold deliverAll. by destruct (connection st). Qed.


Lemma tryTargets_handles net targets st log :
  let r := tryTargets net targets st log in
  (∀ h, h ∈ openSockets r.1 →
        h ∈ openSockets st ∨ (nextHandle st ≤ h < nextHandle r.1)%nat) ∧
  (∀ t, t ∈ activeTimers r.1 →
        t ∈ activeTimers st ∨ (nextHandle st ≤ t < nextHandle r.1)%nat) ∧
  (nextHandle st ≤ nextHandle r.1)%nat.
Proof.
  revert st log; induction targets as [|target rest IH]; intros st log; simpl.
  { repeat split; auto. }
  unfold connectCDP.
  destruct (dial net (webSocketDebuggerUrl (entry target))) as [| |page announced].
  { by apply IH. }
  { destruct (IH (openSocket st) log) as (H1 & H2 & H3). simpl in H1, H2, H3.
    split; [|split; [|lia]].
    - intros h Hh. destruct (H1 h Hh) as [Hold|?]; [|right; lia].
      apply elem_of_union in Hold as [?|Hnew]; [by left|].
      apply elem_of_singleton in Hnew. right. lia.
    - intros t Ht. destruct (H2 t Ht) as [?|?]; [by left|right; lia]. }
  set (cdp := mkCdp (nextHandle st) page 2 announced None).
  destruct (findCascadeContext cdp) as [cid cdp1].
  destruct (truthy cid) as [id|].
  - match goal with |- context [poll ?s] =>
      pose proof (poll_frame s) as (_ & _ & Hso & Hti & Hn & _);
      destruct (poll s) as [st2 c]
    end.
    simpl in Hso, Hti, Hn.
    destruct (rejected c); [destruct (nullish c)|].
    + simpl. rewrite Hso, Hti, Hn. simpl.
      split; [|split; [|lia]].
      * intros h Hh. apply elem_of_union in Hh as [?|Hnew]; [by left|].
        apply elem_of_singleton in Hnew. right. lia.
      * intros t Ht. by left.
    + destruct (IH st2 (log ++ [c])) as (H1 & H2 & H3).
      rewrite Hn in H1, H2, H3. rewrite Hso in H1. rewrite Hti in H2.
      split; [|split; [|lia]].
      * intros h Hh. destruct (H1 h Hh) as [Hold|?]; [|right; lia].
        apply elem_of_union in Hold as [?|Hnew]; [by left|].
        apply elem_of_singleton in Hnew. right. lia.
      * intros t Ht. destruct (H2 t Ht) as [?|?]; [by left|right; lia].
    + simpl. rewrite Hso, Hti, Hn. simpl.
      split; [|split; [|lia]].
      * intros h Hh. apply elem_of_union in Hh as [?|Hnew]; [by left|].
        apply elem_of_singleton in Hnew. right. lia.
      * intros t Ht. apply elem_of_union in Ht as [?|Hnew]; [by left|].
        apply elem_of_singleton in Hnew. right. lia.
  - match goal with |- context [tryTargets net rest ?s log] =>
      destruct (IH s log) as (H1 & H2 & H3)
    end.
    simpl in H1, H2, H3.
    split; [|split; [|lia]].
    + intros h Hh. destruct (H1 h Hh) as [Hold|?]; [|right; lia].
      apply elem_of_difference in Hold as [Hold _].
      apply elem_of_union in Hold as [?|Hnew]; [by left|].
      apply elem_of_singleton in Hnew. right. lia.
    + intros t Ht. destruct (H2 t Ht) as [?|?]; [by left|right; lia].
Qed.

Lemma wellFormed_start net cb st :
  wellFormed st → wellFormed (startChatStream net cb st).1.
Proof.
  unfold startChatStream.
  destruct (findTargets (listing net)) as [|target targets]; [done|].
  destruct (tryTargets_handles net (target :: targets) (setOnChatUpdate cb st) [])
    as (H1 & H2 & H3).
  intros Hwf. by apply (wellFormed_step (setOnChatUpdate cb st)).
Qed.


(** The states of the two scenarios are reachable, hence well formed. *)
Lemma wellFormed_running : wellFormed running ∧ wellFormed runningPicky.
Proof. split; apply wellFormed_start, wellFormed_initial. Qed.

(** * Further properties *)

(** ** The fingerprint as a number *)

Lemma to_int32_mod a b :
  a mod 2 ^ 32 = b mod 2 ^ 32 → to_int32 a = to_int32 b.
Proof.
  intros H. unfold to_int32.
  rewrite <- (Zplus_mod_idemp_l a), <- (Zplus_mod_idemp_l b), H. reflexivity.
Qed.

Lemma to_int32_congr a : to_int32 a mod 2 ^ 32 = a mod 2 ^ 32.
Proof.
  unfold to_int32.
  rewrite <- Zminus_mod_idemp_l, Z.mod_mod by lia.
  rewrite Zminus_mod_idemp_l. f_equal. lia.
Qed.

Lemma to_int32_small a : - 2 ^ 31 ≤ a < 2 ^ 31 → to_int32 a = a.
Proof. intros H. unfold to_int32. rewrite Z.mod_small; lia. Qed.

Lemma hash_step_poly a code :
  hash_step (to_int32 a) code = to_int32 (31 * a + code).
Proof.
  unfold hash_step. rewrite Z.land_diag, Z.shiftl_mul_pow2 by lia.
  rewrite (to_int32_small (to_int32 a)) by apply to_int32_range.
  apply to_int32_mod.
  rewrite <- Zplus_mod_idemp_l, <- Zminus_mod_idemp_l, to_int32_congr.
  rewrite <- Zminus_mod_idemp_r, to_int32_congr.
  rewrite <- (Zmult_mod_idemp_l (to_int32 a)), to_int32_congr, Zmult_mod_idemp_l.
  rewrite Zminus_mod_idemp_r, Zminus_mod_idemp_l, Zplus_mod_idemp_l.
  f_equal. lia.
Qed.

Lemma hash_loop_cons code str hash :
  hash_loop (code :: str) hash = hash_loop str (hash_step hash code).
Proof. reflexivity. Qed.

Lemma poly31_cons code str acc :
  poly31 (code :: str) acc = poly31 str (31 * acc + code).
Proof. reflexivity. Qed.

Lemma hash_loop_poly str a :
  hash_loop str (to_int32 a) = to_int32 (poly31 str a).
Proof.
  revert a. induction str as [|code str IH]; intros a; [reflexivity|].
  rewrite hash_loop_cons, poly31_cons, hash_step_poly. apply IH.
Qed.

(** X1. The 32-bit hash behind the fingerprint is the value of the
    polynomial with the code units as coefficients at 31, wrapped to a
    signed 32-bit integer; two strings whose polynomials agree modulo 2^32
    have the same fingerprint. *)
Theorem hash_is_polynomial (str other : jsstring) :
  hash_loop str 0 = to_int32 (poly31 str 0) ∧
  (poly31 str 0 mod 2 ^ 32 = poly31 other 0 mod 2 ^ 32 →
   hashString str = hashString other).
Proof.
  assert (∀ s, hash_loop s 0 = to_int32 (poly31 s 0)) as Hp.
  { intros s. rewrite <- (to_int32_small 0) at 1 by lia. apply hash_loop_poly. }
  split; [apply Hp|].
  intros Hmod. unfold hashString. rewrite !Hp. f_equal. by apply to_int32_mod.
Qed.

(** Two different strings with one fingerprint. *)
Example fingerprint_collision :
  codeUnits "Aa" ≠ codeUnits "BB" ∧ hashString (codeUnits "Aa") = hashString (codeUnits "BB").
Proof. split; [discriminate|reflexivity]. Qed.

(** ** Reading a fingerprint back *)

Lemma digitValue_digit36 d : 0 ≤ d < 36 → digitValue (digit36 d) = d.
Proof.
  intros Hd. destruct d as [|p|p]; [reflexivity| |lia].
  do 6 (destruct p as [p|p|]; try lia; try reflexivity).
Qed.

Lemma digit36_not_minus d : 0 ≤ d < 36 → digit36 d ≠ "-"%char.
Proof.
  intros Hd. destruct d as [|p|p]; [discriminate| |lia].
  do 6 (destruct p as [p|p|]; try lia; try discriminate).
Qed.

Lemma parseDigits_radix36 fuel n acc :
  (0 < fuel)%nat → 0 ≤ n < 36 ^ Z.of_nat fuel →
  parseDigits (radix36 fuel n acc) 0 = parseDigits acc n.
Proof.
  revert n acc; induction fuel as [|fuel IH]; intros n acc Hpos Hn; [lia|].
  assert (0 ≤ n mod 36 < 36) as Hd by (apply Z.mod_pos_bound; lia).
  assert (n = 36 * (n / 36) + n mod 36) as Hdiv by (apply Z.div_mod; lia).
  cbn [radix36]. destruct (Z.eqb_spec (n / 36) 0) as [Hq|Hq].
  - cbn [parseDigits]. rewrite digitValue_digit36 by done. f_equal. lia.
  - assert (0 < n / 36 < 36 ^ Z.of_nat fuel) as Hr.
    { rewrite Nat2Z.inj_succ, Z.pow_succ_r in Hn by lia.
      split; [|apply Z.div_lt_upper_bound; lia].
      pose proof (Z.div_pos n 36 ltac:(lia) ltac:(lia)). lia. }
    destruct fuel as [|fuel]; [simpl in Hr; lia|].
    rewrite IH by lia. cbn [parseDigits].
    rewrite digitValue_digit36 by done. f_equal. lia.
Qed.

Lemma radix36_head fuel n acc :
  0 ≤ n →
  ((0 < fuel)%nat ∨ ∃ d rest, 0 ≤ d < 36 ∧ acc = String (digit36 d) rest) →
  ∃ d rest, 0 ≤ d < 36 ∧ radix36 fuel n acc = String (digit36 d) rest.
Proof.
  revert n acc; induction fuel as [|fuel IH]; intros n acc Hn Hacc.
  - destruct Hacc as [?|?]; [lia|done].
  - assert (0 ≤ n mod 36 < 36) as Hd by (apply Z.mod_pos_bound; lia).
    cbn [radix36]. destruct (n / 36 =? 0); [by eauto|].
    apply IH; [apply Z.div_pos; lia|]. right. eauto.
Qed.

Lemma length_radix36 fuel n acc :
  (String.length (radix36 fuel n acc) ≤ fuel + String.length acc)%nat.
Proof.
  revert n acc; induction fuel as [|fuel IH]; intros n acc; cbn [radix36]; [lia|].
  destruct (n / 36 =? 0); [simpl; lia|].
  etransitivity; [apply IH|]. simpl. lia.
Qed.

Lemma parse36_toString36 n : - 2 ^ 31 ≤ n < 2 ^ 31 → parse36 (toString36 n) = n.
Proof.
  intros Hn. assert (36 ^ Z.of_nat 7 = 78364164096) as H36 by reflexivity.
  unfold toString36. destruct (Z.ltb_spec n 0).
  - cbn [parse36]. rewrite parseDigits_radix36 by lia. cbn [parseDigits]. lia.
  - destruct (radix36_head 7 n EmptyString ltac:(lia) ltac:(left; lia))
      as (d & rest & Hd & Heq).
    pose proof (parseDigits_radix36 7 n EmptyString ltac:(lia) ltac:(lia)) as Hp.
    rewrite Heq in Hp |- *. unfold parse36.
    pose proof (digit36_not_minus d Hd) as Hne.
    destruct (digit36 d) as [[] [] [] [] [] [] [] []]; try exact Hp. congruence.
Qed.

(** X2. A fingerprint can be read back: parsing it in radix 36 gives the
    32-bit hash it was printed from. So the printing loses nothing: two
    strings have the same fingerprint exactly when their 32-bit hashes are
    equal. *)
Theorem fingerprint_reads_back (str other : jsstring) :
  parse36 (hashString str) = hash_loop str 0 ∧
  (hashString str = hashString other ↔ hash_loop str 0 = hash_loop other 0).
Proof.
  assert (∀ s, parse36 (hashString s) = hash_loop s 0) as Hback.
  { intros s. apply parse36_toString36, hash_loop_range. lia. }
  split; [apply Hback|]. split.
  - intros Heq. rewrite <- (Hback str), <- (Hback other). by rewrite Heq.
  - intros Heq. unfold hashString. by rewrite Heq.
Qed.

(** X3. A fingerprint is short: at least one and at most seven
    characters (a sign and six digits). *)
Theorem fingerprint_length (str : jsstring) :
  (1 ≤ String.length (hashString str) ≤ 7)%nat.
Proof.
  pose proof (hash_loop_range str 0 ltac:(lia)) as Hr.
  assert (36 ^ Z.of_nat 6 = 2176782336) as H36 by reflexivity.
  unfold hashString, toString36.
  destruct (Z.ltb_spec (hash_loop str 0) 0) as [Hneg|Hpos].
  - change 7%nat with (6 + 1)%nat. rewrite radix36_fuel by lia. cbn [String.length].
    pose proof (length_radix36 6 (- hash_loop str 0) EmptyString). simpl in *. lia.
  - change 7%nat with (6 + 1)%nat. rewrite radix36_fuel by lia.
    pose proof (length_radix36 6 (hash_loop str 0) EmptyString) as Hlen.
    destruct (radix36_head 6 (hash_loop str 0) EmptyString Hpos ltac:(left; lia))
      as (d & rest & _ & Heq).
    rewrite Heq in Hlen |- *. simpl in *. lia.
Qed.

(** ** Context tracking *)

Lemma spliceFirst_absent id ctxs : id ∉ ctxs → spliceFirst id ctxs = ctxs.
Proof.
  induction ctxs as [|c rest IH]; intros Hin; [done|].
  apply not_elem_of_cons in Hin as [Hne Hin]. simpl.
  destruct (Z.eqb_spec c id); [congruence|]. by rewrite IH.
Qed.

Lemma spliceFirst_split id before after :
  id ∉ before → spliceFirst id (before ++ id :: after) = before ++ after.
Proof.
  induction before as [|c rest IH]; intros Hin; simpl.
  - by rewrite Z.eqb_refl.
  - apply not_elem_of_cons in Hin as [Hne Hin].
    destruct (Z.eqb_spec c id); [congruence|]. by rewrite IH.
Qed.

(** X4. A context-destroyed notification removes one entry from the
    tracked contexts, the first one with that id, and keeps the others in
    their order; it leaves the socket, the request counter and the cached
    context id as they are (the cache is not invalidated by the
    notification). *)
Theorem destroyed_removes_first (cdp : Cdp) (id : Z) (before after : list Z) :
  contexts cdp = before ++ id :: after → id ∉ before →
  contexts (deliver cdp (ContextDestroyed id)) = before ++ after ∧
  cascadeContextId (deliver cdp (ContextDestroyed id)) = cascadeContextId cdp ∧
  idCounter (deliver cdp (ContextDestroyed id)) = idCounter cdp ∧
  ws (deliver cdp (ContextDestroyed id)) = ws cdp.
Proof.
  intros Hc Hin. simpl. rewrite Hc. by rewrite spliceFirst_split.
Qed.

Lemma destroyed_removes_first_witness :
  contexts reloadedSession = [1] ++ 3 :: [4] ∧ (3 ∉ [1]) ∧
  contexts (deliver reloadedSession (ContextDestroyed 3)) = [1] ++ [4] ∧
  cascadeContextId (deliver reloadedSession (ContextDestroyed 3))
    = cascadeContextId reloadedSession ∧
  idCounter (deliver reloadedSession (ContextDestroyed 3)) = idCounter reloadedSession ∧
  ws (deliver reloadedSession (ContextDestroyed 3)) = ws reloadedSession.
Proof.
  assert (3 ∉ [1]) as Hin by (intros H; apply list_elem_of_singleton in H; discriminate H).
  split; [reflexivity|]. split; [exact Hin|].
  exact (destroyed_removes_first reloadedSession 3 [1] [4] eq_refl Hin).
Defined.

(** X5. A context-destroyed notification for an id that is not tracked
    changes nothing, and a context that is created and then destroyed
    leaves the tracked list as it was. *)
Theorem untracked_context_ignored (cdp : Cdp) (id : Z) :
  id ∉ contexts cdp →
  deliver cdp (ContextDestroyed id) = cdp ∧
  deliver (deliver cdp (ContextCreated id)) (ContextDestroyed id) = cdp.
Proof.
  intros Hin. destruct cdp as [w p n ctxs cache]. simpl in *. split.
  - by rewrite spliceFirst_absent.
  - by rewrite spliceFirst_split, app_nil_r.
Qed.

Lemma untracked_context_ignored_witness :
  (9 ∉ contexts freshSession) ∧
  deliver freshSession (ContextDestroyed 9) = freshSession ∧
  deliver (deliver freshSession (ContextCreated 9)) (ContextDestroyed 9) = freshSession.
Proof.
  assert (9 ∉ contexts freshSession) as Hin.
  { intros H. simpl in H. repeat (apply elem_of_cons in H as [H|H]; [discriminate H|]).
    by apply elem_of_nil in H. }
  split; [exact Hin|]. exact (untracked_context_ignored freshSession 9 Hin).
Defined.

(** ** The context locator *)


(** The scan returns a context only after a probe in it reported
    [found: true], and then caches it. *)
Lemma searchContexts_found ctxs cdp id :
  (searchContexts ctxs cdp).1 = Some id →
  id ∈ ctxs ∧
  cascadeContextId (searchContexts ctxs cdp).2 = Some id ∧
  ∃ k, (idCounter cdp ≤ k < idCounter (searchContexts ctxs cdp).2)%nat ∧
       replyProbe (peer cdp) k id = ProbeFound.
Proof.
  revert cdp; induction ctxs as [|ctx rest IH]; intros cdp; simpl; [done|].
  destruct (replyProbe (peer cdp) (idCounter cdp) ctx) eqn:Hr; simpl.
  - intros H. destruct (IH _ H) as (Hin & Hc & k & Hk & Hf). simpl in *.
    split; [by right|]. split; [done|]. exists k. split; [lia|done].
  - intros [= <-]. split; [by left|]. split; [done|].
    exists (idCounter cdp). split; [lia|done].
  - intros H. destruct (IH _ H) as (Hin & Hc & k & Hk & Hf). simpl in *.
    split; [by right|]. split; [done|]. exists k. split; [lia|done].
Qed.

(** X6. The locator never returns a context id it has not validated in
    the same call: when it returns an id, one of the evaluations of this
    call ran the probe in that context and got [found: true]; the id is
    the cached one or one of the tracked contexts, and the cache holds it
    afterwards. *)
Theorem locate_returns_validated (cdp : Cdp) (id : Z) :
  (findCascadeContext cdp).1 = Some id →
  (truthy (cascadeContextId cdp) = Some id ∨ id ∈ contexts cdp) ∧
  cascadeContextId (findCascadeContext cdp).2 = Some id ∧
  ∃ k, (idCounter cdp ≤ k < idCounter (findCascadeContext cdp).2)%nat ∧
       replyProbe (peer cdp) k id = ProbeFound.
Proof.
  unfold findCascadeContext.
  destruct (truthy (cascadeContextId cdp)) as [cached|] eqn:Ht.
  - simpl. destruct (replyProbe (peer cdp) (idCounter cdp) cached) eqn:Hr; simpl.
    + intros H. destruct (searchContexts_found _ _ _ H) as (Hin & Hc & k & Hk & Hf).
      simpl in *. split; [by right|]. split; [done|]. exists k. split; [lia|done].
    + intros [= <-]. split; [by left|]. split.
      * unfold truthy in Ht. destruct (cascadeContextId cdp) as [c|]; [|done].
        destruct (c =? 0); congruence.
      * exists (idCounter cdp). split; [lia|done].
    + intros H. destruct (searchContexts_found _ _ _ H) as (Hin & Hc & k & Hk & Hf).
      simpl in *. split; [by right|]. split; [done|]. exists k. split; [lia|done].
  - intros H. destruct (searchContexts_found _ _ _ H) as (Hin & Hc & k & Hk & Hf).
    split; [by right|]. split; [done|]. exists k. split; [lia|done].
Qed.

Lemma locate_returns_validated_witness :
  (findCascadeContext freshSession).1 = Some 3 ∧
  (truthy (cascadeContextId freshSession) = Some 3 ∨ 3 ∈ contexts freshSession) ∧
  cascadeContextId (findCascadeContext freshSession).2 = Some 3 ∧
  ∃ k, (idCounter freshSession ≤ k < idCounter (findCascadeContext freshSession).2)%nat ∧
       replyProbe (peer freshSession) k 3 = ProbeFound.
Proof.
  split; [reflexivity|]. exact (locate_returns_validated freshSession 3 eq_refl).
Defined.









(** X10. A destroyed context is not returned again. When the cached
    context is destroyed, so that the page rejects every evaluation in it
    from now on, the next call of the locator clears the cache and rescans:
    it returns [null] or some other context, never the destroyed id, and
    the cache does not hold the destroyed id afterwards. This does not
    depend on the notification: it holds before it has been delivered and
    after, and however often the id is in the tracked list. *)
Theorem destroyed_context_not_returned (cdp : Cdp) (id : Z) (delivered : bool) :
  truthy (cascadeContextId cdp) = Some id →
  (∀ k, (idCounter cdp ≤ k)%nat → replyProbe (peer cdp) k id = ProbeThrows) →
  let session := if delivered then deliver cdp (ContextDestroyed id) else cdp in
  let after := findCascadeContext session in
  after.1 ≠ Some id ∧ cascadeContextId after.2 ≠ Some id.
Proof.
  intros Ht Hr session after. subst after.
  assert (truthy (cascadeContextId session) = Some id ∧ peer session = peer cdp ∧
          idCounter session = idCounter cdp) as (Ht' & Hpeer & Hcount)
    by (subst session; by destruct delivered).
  unfold findCascadeContext. rewrite Ht'.
  cbn [evaluateProbe takeId peer idCounter]. rewrite Hpeer, Hcount, Hr by lia.
  cbn [contexts setCascadeContextId].
  match goal with |- context [searchContexts ?l ?c] =>
    destruct (searchContexts l c).1 as [found|] eqn:Hs;
    [destruct (searchContexts_found l c found Hs) as (_ & Hc & k & Hk & Hfound)
    |pose proof (searchContexts_none_keeps_cache l c Hs) as Hc]
  end.
  - simpl in Hk, Hfound. rewrite Hc.
    assert (found ≠ id) as Hne.
    { intros ->. rewrite Hr in Hfound by lia. discriminate. }
    split; congruence.
  - rewrite Hc. split; done.
Qed.

Lemma destroyed_context_not_returned_witness :
  truthy (cascadeContextId reloadedSession) = Some 3 ∧
  (∀ k, (idCounter reloadedSession ≤ k)%nat →
        replyProbe (peer reloadedSession) k 3 = ProbeThrows) ∧
  (findCascadeContext (deliver reloadedSession (ContextDestroyed 3))).1 = Some 4 ∧
  (findCascadeContext (deliver reloadedSession (ContextDestroyed 3))).1 ≠ Some 3 ∧
  cascadeContextId (findCascadeContext (deliver reloadedSession (ContextDestroyed 3))).2
    ≠ Some 3.
Proof.
  assert (∀ k, (idCounter reloadedSession ≤ k)%nat →
               replyProbe (peer reloadedSession) k 3 = ProbeThrows) as Hr
    by (intros k _; reflexivity).
  split; [reflexivity|]. split; [exact Hr|]. split; [reflexivity|].
  exact (destroyed_context_not_returned reloadedSession 3 true eq_refl Hr).
Defined.

(** With the id tracked twice and a page that answers in the destroyed
    context all the same, the id comes back: the premise on the page is
    needed. *)
Example tracked_twice_returned :
  (findCascadeContext
     (deliver (mkCdp 0 (mkRemote (fun k _ => if (k =? 6)%nat then ProbeThrows else ProbeFound)
                                 (fun _ _ => CaptureError)) 6 [3; 3] (Some 3))
              (ContextDestroyed 3))).1 = Some 3.
Proof. reflexivity. Qed.

(** ** Stopping *)

(** X11. [stopChatStream] leaves the core idle whatever state it was in:
    the four module variables are [null], [isStreaming] answers false, the
    socket of the connection it held is closed and the timer it held is
    cancelled; a second call changes nothing. *)
Theorem stop_releases_session (st : State) :
  let st' := stopChatStream st in
  connection st' = None ∧ onChatUpdate st' = None ∧
  pollInterval st' = None ∧ lastHash st' = None ∧
  isStreaming st' = false ∧
  stopChatStream st' = st' ∧
  (∀ cdp, connection st = Some cdp → ws cdp ∉ openSockets st') ∧
  (∀ t, pollInterval st = Some t → t ∉ activeTimers st').
Proof.
  destruct st as [[cdp|] cb [t|] last sockets timers next]; simpl;
    repeat split; try done; intros x [= <-]; set_solver.
Qed.

(** X12. Once the core is stopped, ticks of timers that are still
    scheduled do nothing: no call of a consumer, no change of state. *)
Theorem ticks_after_stop_are_silent (ticks : list (list ContextEvent)) (st : State) :
  (runCycles ticks (stopChatStream st)).1 = stopChatStream st ∧
  emissions (runCycles ticks (stopChatStream st)).2 = [] ∧
  Forall (fun c => c = quiet) (runCycles ticks (stopChatStream st)).2.
Proof.
  assert (connection (stopChatStream st) = None) as Hc
    by (destruct st as [[cdp|] cb [t|] last sockets timers next]; done).
  generalize dependent (stopChatStream st). clear st. intros st Hc.
  assert ((runCycles ticks st).1 = st ∧ Forall (fun c => c = quiet) (runCycles ticks st).2)
    as [H1 H2].
  { assert (∀ evs, poll (deliverAll evs st) = (st, quiet)) as Hq
      by (intros evs; unfold deliverAll, poll; by rewrite !Hc).
    induction ticks as [|evs rest [IH1 IH2]]; [by split|].
    cbn [runCycles]. rewrite Hq.
    destruct (runCycles rest st) as [st2 cs]. simpl in *. split; [done|by constructor]. }
  split; [done|]. split; [|done].
  unfold emissions. induction H2 as [|c cs -> _ IH]; [done|]. simpl. exact IH.
Qed.

(** ** Starting with a consumer that does not throw *)

Lemma tryTargets_outcome net targets st log :
  settles net → wellFormed st → harmless (onChatUpdate st) →
  let r := tryTargets net targets st log in
  (success r.2.1 = false →
     openSockets r.1 = openSockets st ∧ activeTimers r.1 = activeTimers st ∧
     connection r.1 = connection st ∧ pollInterval r.1 = pollInterval st) ∧
  (success r.2.1 = true →
     ∃ cdp t, connection r.1 = Some cdp ∧ pollInterval r.1 = Some t ∧
       (ws cdp ∉ openSockets st) ∧ openSockets r.1 = openSockets st ∪ {[ws cdp]} ∧
       (t ∉ activeTimers st) ∧ activeTimers r.1 = activeTimers st ∪ {[t]}).
Proof.
  intros Hnet.
  revert st log; induction targets as [|target rest IH]; intros st log Hwf Hcb; simpl.
  { split; [done|discriminate]. }
  unfold connectCDP.
  destruct (dial net (webSocketDebuggerUrl (entry target))) as [| |page announced] eqn:Hd.
  { by apply IH. }
  { by destruct (Hnet (webSocketDebuggerUrl (entry target))). }
  set (cdp := mkCdp (nextHandle st) page 2 announced None).
  pose proof (findCascadeContext_frame cdp) as (Hws & _).
  destruct (findCascadeContext cdp) as [cid cdp1]. simpl in Hws.
  destruct (truthy cid) as [id|].
  - match goal with |- context [poll ?s] =>
      pose proof (poll_frame s) as (_ & Hpi & Hso & Hti & Hn & Hconn);
      pose proof (poll_resolves s) as Hres;
      destruct (poll s) as [st2 c]
    end.
    simpl in Hpi, Hso, Hti, Hn, Hconn, Hres. rewrite Hres by exact Hcb.
    split; [discriminate|]. intros _.
    inversion Hconn as [? new (Hw & _) Ha Hb|]; subst.
    exists new, (nextHandle st2). simpl. rewrite <- Hb, Hso, Hti, Hn, <- Hw, <- Hws.
    destruct Hwf as [Hwf1 Hwf2].
    repeat split; try done.
    + intros Hin. specialize (Hwf1 _ Hin). simpl in Hwf1. lia.
    + intros Hin. specialize (Hwf2 _ Hin). simpl in Hwf2. lia.
  - rewrite <- Hws. change (ws cdp) with (nextHandle st).
    destruct (IH (closeSocket (nextHandle st) (openSocket st)) log) as [Hfail Hok];
      [by apply wellFormed_close, wellFormed_open|done|].
    rewrite (open_then_close st Hwf) in Hfail, Hok. split; [exact Hfail|exact Hok].
Qed.

Lemma startChatStream_outcome net cb st :
  settles net → wellFormed st → harmless cb →
  let r := startChatStream net cb st in
  (success r.2.1 = false →
     openSockets r.1 = openSockets st ∧ activeTimers r.1 = activeTimers st ∧
     connection r.1 = connection st ∧ pollInterval r.1 = pollInterval st) ∧
  (success r.2.1 = true →
     ∃ cdp t, connection r.1 = Some cdp ∧ pollInterval r.1 = Some t ∧
       (ws cdp ∉ openSockets st) ∧ openSockets r.1 = openSockets st ∪ {[ws cdp]} ∧
       (t ∉ activeTimers st) ∧ activeTimers r.1 = activeTimers st ∪ {[t]}).
Proof.
  intros Hnet Hwf Hcb. unfold startChatStream.
  destruct (findTargets (listing net)) as [|target targets].
  - split; [done|discriminate].
  - apply (tryTargets_outcome net (target :: targets) (setOnChatUpdate cb st) []
             Hnet Hwf Hcb).
Qed.

Lemma added_then_removed (S : gset nat) (x : nat) : x ∉ S → (S ∪ {[x]}) ∖ {[x]} = S.
Proof. set_solver. Qed.

(** X13. Start followed by stop leaks nothing when the consumer does not
    throw and no [connectCDP] throws with its socket open: from an idle,
    well-formed core, whichever targets the network lists, whether their
    sockets open and whether they host the chat root, and whether or not
    the start succeeds, the sockets that are open and the timers that are
    scheduled after [stopChatStream] are those from before the start. *)
Theorem start_then_stop_leaks_nothing
  (net : Net) (cb : option Callback) (st : State) :
  settles net →
  wellFormed st → connection st = None → pollInterval st = None → harmless cb →
  let st' := stopChatStream (startChatStream net cb st).1 in
  openSockets st' = openSockets st ∧ activeTimers st' = activeTimers st ∧
  isStreaming st' = false.
Proof.
  intros Hnet Hwf Hc Hp Hcb st'. subst st'.
  destruct (startChatStream_outcome net cb st Hnet Hwf Hcb) as [Hfail Hok].
  destruct (stop_resources (startChatStream net cb st).1) as [Hso Hti].
  rewrite Hso, Hti.
  split; [|split; [|by destruct (startChatStream net cb st).1 as [[?|] ? [?|] ? ? ? ?]]].
  - destruct (success (startChatStream net cb st).2.1).
    + destruct (Hok eq_refl) as (cdp & t & -> & _ & Hfresh & -> & _).
      by apply added_then_removed.
    + destruct (Hfail eq_refl) as (-> & _ & -> & _). by rewrite Hc.
  - destruct (success (startChatStream net cb st).2.1).
    + destruct (Hok eq_refl) as (cdp & t & _ & -> & _ & _ & Hfresh & ->).
      by apply added_then_removed.
    + destruct (Hfail eq_refl) as (_ & -> & _ & ->). by rewrite Hp.
Qed.

Lemma start_then_stop_leaks_nothing_witness :
  settles liveNet ∧
  wellFormed initial ∧ connection initial = None ∧ pollInterval initial = None ∧
  harmless (Some cbQuiet) ∧
  openSockets (stopChatStream (startChatStream liveNet (Some cbQuiet) initial).1)
    = openSockets initial ∧
  activeTimers (stopChatStream (startChatStream liveNet (Some cbQuiet) initial).1)
    = activeTimers initial ∧
  isStreaming (stopChatStream (startChatStream liveNet (Some cbQuiet) initial).1) = false.
Proof.
  assert (harmless (Some cbQuiet)) as Hcb by (intros c chat [= <-]; reflexivity).
  assert (settles liveNet) as Hnet by (intros wsUrl; discriminate).
  split; [exact Hnet|].
  split; [apply wellFormed_initial|]. split; [reflexivity|]. split; [reflexivity|].
  split; [exact Hcb|].
  exact (start_then_stop_leaks_nothing liveNet (Some cbQuiet) initial
           Hnet wellFormed_initial eq_refl eq_refl Hcb).
Defined.

(** ** Start and [isStreaming] *)




(** ** What the module variables refer to *)










(** ** A page that does not change *)

(** A chat handed to the consumer is one the page returned. *)
Lemma poll_calls_captured st chat :
  chat ∈ calls (poll st).2 →
  ∃ cdp k ctx, connection st = Some cdp ∧
               replyCapture (peer cdp) k ctx = CaptureValue chat.
Proof.
  assert (∀ x : Chat, x ∈ calls quiet → False) as Hq
    by (intros x Hx; by apply elem_of_nil in Hx).
  unfold poll. destruct (connection st) as [cdp|]; [|intros Hin; by apply Hq in Hin].
  pose proof (findCascadeContext_frame cdp) as (_ & Hpeer & _).
  destruct (findCascadeContext cdp) as [cid cdp1]. simpl in Hpeer.
  destruct (truthy cid) as [id|]; [|intros Hin; by apply Hq in Hin].
  unfold captureChat. simpl.
  destruct (replyCapture (peer cdp1) (idCounter cdp1) id) as [| |c] eqn:Hr;
    simpl; try (intros Hin; by apply Hq in Hin).
  destruct (html c) eqn:Hh; simpl; [intros Hin; by apply Hq in Hin|].
  case_decide as Hd; [intros Hin; by apply Hq in Hin|].
  destruct (onChatUpdate st); simpl; [|intros Hin; by apply Hq in Hin].
  intros Hin. apply list_elem_of_singleton in Hin as ->.
  exists cdp, (idCounter cdp1), id. split; [done|]. by rewrite Hpeer.
Qed.

Lemma showsOnly_poll h st : showsOnly h st → showsOnly h (poll st).1.
Proof.
  intros Hs cdp' k ctx chat Hc Hr.
  pose proof (poll_frame st) as (_ & _ & _ & _ & _ & Hconn). rewrite Hc in Hconn.
  inversion Hconn as [cdp ? (_ & Hpeer & _) Ha Hb|]; subst.
  apply (Hs cdp k ctx chat); [done|]. by rewrite Hpeer.
Qed.

Lemma showsOnly_deliverAll h evs st : showsOnly h st → showsOnly h (deliverAll evs st).
Proof.
  intros Hs. unfold deliverAll. destruct (connection st) as [cdp|] eqn:Hconn; [|done].
  assert (peer (fold_left deliver evs cdp) = peer cdp) as Hpeer.
  { clear. revert cdp; induction evs as [|ev evs IH]; intros cdp; [done|].
    simpl. rewrite IH. by destruct ev. }
  intros cdp' k ctx chat [= <-] Hr. rewrite Hpeer in Hr. by apply (Hs cdp k ctx chat).
Qed.

Lemma runCycles_showsOnly h ticks st :
  showsOnly h st →
  Forall (fun e => e = hashString h) (emissions (runCycles ticks st).2).
Proof.
  revert st; induction ticks as [|evs rest IH]; intros st Hs; [constructor|].
  cbn [runCycles].
  pose proof (showsOnly_deliverAll h evs st Hs) as Hs1.
  pose proof (showsOnly_poll h _ Hs1) as Hs2.
  assert (∀ chat, chat ∈ calls (poll (deliverAll evs st)).2 → html chat = h) as Hcalls.
  { intros chat Hin. destruct (poll_calls_captured _ _ Hin) as (cdp & k & ctx & Hc & Hr).
    by apply (Hs1 cdp k ctx chat). }
  destruct (poll (deliverAll evs st)) as [st1 c]. simpl in Hs2, Hcalls.
  specialize (IH st1 Hs2). destruct (runCycles rest st1) as [st2 cs]. simpl in *.
  change (c :: cs) with ([c] ++ cs). rewrite emissions_app. apply Forall_app. split; [|done].
  unfold emissions. simpl. rewrite app_nil_r. apply Forall_forall.
  intros e He. apply list_elem_of_fmap in He as (chat & -> & Hin). by rewrite (Hcalls chat Hin).
Qed.

Lemma gated_constant last hashes x :
  gated last hashes → Forall (fun e => e = x) hashes → (length hashes ≤ 1)%nat.
Proof.
  intros Hg Hall. destruct hashes as [|a [|b rest]]; simpl; try lia.
  destruct Hg as (_ & Hne & _).
  apply Forall_cons in Hall as [-> Hall]. apply Forall_cons in Hall as [-> _]. done.
Qed.

(** X16. While the page keeps showing the same markup, the consumer is
    called at most once over a whole run of cycles, however many ticks
    there are and however the contexts come and go: repeated captures of
    equal markup produce no further update. *)
Theorem unchanged_page_emits_once
  (h : jsstring) (ticks : list (list ContextEvent)) (st : State) :
  showsOnly h st →
  (length (emissions (runCycles ticks st).2) ≤ 1)%nat.
Proof.
  intros Hs. pose proof (runCycles_showsOnly h ticks st Hs) as Hall.
  pose proof (runCycles_traced ticks st) as [_ Ht].
  destruct (onChatUpdate st).
  - destruct Ht as [Hg _]. by eapply gated_constant.
  - rewrite Ht. simpl. lia.
Qed.

Lemma unchanged_page_emits_once_witness :
  showsOnly (html chatOne) steadyState ∧
  (length (emissions (runCycles [[]; [ContextCreated 7]; []] steadyState).2) ≤ 1)%nat ∧
  emissions (runCycles [[]; [ContextCreated 7]; []] steadyState).2 = ["-1z0h9f"].
Proof.
  assert (showsOnly (html chatOne) steadyState) as Hs.
  { intros cdp k ctx chat [= <-] [= <-]. reflexivity. }
  split; [exact Hs|]. split; [|vm_compute; reflexivity].
  exact (unchanged_page_emits_once _ [[]; [ContextCreated 7]; []] _ Hs).
Defined.

(** ** The clean-up only removes *)

Lemma Node_children_ind (P : Node → Prop) :
  (∀ data, P (Text data)) →
  (∀ u tag attrs cs, Forall P cs → P (Element u tag attrs cs)) →
  ∀ n, P n.
Proof.
  intros Htext Helem. fix IH 1. intros [u tag attrs cs|data]; [|apply Htext].
  apply Helem. revert cs. fix IHcs 1. intros [|c cs]; constructor; [apply IH|apply IHcs].
Qed.

Lemma shell_removeWhere dead n : shell (removeWhere dead n) = shell n.
Proof. by destruct n. Qed.

Lemma deadNode_removeWhere dead dead' n :
  deadNode dead (removeWhere dead' n) = deadNode dead n.
Proof. by destruct n. Qed.

Lemma removeNode_removeWhere u n : removeNode u n = removeWhere (fun v => (v =? u)%nat) n.
Proof.
  induction n as [data|v tag attrs cs IH] using Node_children_ind; [done|].
  simpl. f_equal.
  assert (map (removeNode u) cs = map (removeWhere (fun v => (v =? u)%nat)) cs) as ->.
  { induction IH as [|c cs Hc _ IHcs]; [done|]. simpl. by rewrite Hc, IHcs. }
  apply List.filter_ext. intros c. by destruct c.
Qed.

Lemma removeWhere_none n : removeWhere (fun _ => false) n = n.
Proof.
  induction n as [data|v tag attrs cs IH] using Node_children_ind; [done|].
  simpl. f_equal. induction IH as [|c cs Hc _ IHcs]; [done|].
  simpl. rewrite Hc, IHcs. by destruct c.
Qed.

Lemma removeWhere_compose d1 d2 n :
  removeWhere d2 (removeWhere d1 n) = removeWhere (fun v => d1 v || d2 v) n.
Proof.
  induction n as [data|v tag attrs cs IH] using Node_children_ind; [done|].
  simpl. f_equal. induction IH as [|c cs Hc _ IHcs]; [done|].
  simpl. rewrite <- IHcs, <- Hc.
  destruct (deadNode d1 (removeWhere d1 c)) eqn:H1; simpl.
  - rewrite !deadNode_removeWhere in *.
    assert (deadNode (fun v => d1 v || d2 v) c = true) as ->
      by (destruct c; simpl in *; by rewrite ?H1). done.
  - rewrite !deadNode_removeWhere in *.
    assert (deadNode (fun v => d1 v || d2 v) c = deadNode d2 c) as ->
      by (destruct c; simpl in *; by rewrite ?H1).
    by destruct (deadNode d2 c).
Qed.

Lemma removeWhere_ext d1 d2 n :
  (∀ v, d1 v = d2 v) → removeWhere d1 n = removeWhere d2 n.
Proof.
  intros Hext.
  induction n as [data|v tag attrs cs IH] using Node_children_ind; [done|].
  simpl. f_equal. induction IH as [|c cs Hc _ IHcs]; [done|].
  simpl. rewrite Hc, IHcs.
  assert (deadNode d1 (removeWhere d2 c) = deadNode d2 (removeWhere d2 c)) as ->
    by (destruct c; simpl; auto). done.
Qed.

(** What is left below the root after a removal was there before, is not
    marked, and has lost nothing but marked subtrees. *)
Lemma descendants_removeWhere dead t p' n' :
  In (p', n') (descendants (removeWhere dead t)) →
  ∃ p n, In (p, n) (descendants t) ∧ p' = removeWhere dead p ∧
         n' = removeWhere dead n ∧ deadNode dead n = false.
Proof.
  revert p' n'.
  induction t as [data|v tag attrs cs IH] using Node_children_ind; [done|].
  intros p' n' Hin. change (removeWhere dead (Element v tag attrs cs)) with
    (Element v tag attrs
       (List.filter (fun c => negb (deadNode dead c)) (map (removeWhere dead) cs))) in Hin.
  cbn [descendants] in Hin. apply in_flat_map in Hin as (c' & Hc' & Hin).
  apply filter_In in Hc' as [Hc' Hlive]. apply in_map_iff in Hc' as (c & <- & Hc).
  rewrite deadNode_removeWhere in Hlive. apply negb_true_iff in Hlive.
  destruct Hin as [[= <- <-]|Hin].
  - exists (Element v tag attrs cs), c. split_and!; try done.
    cbn [descendants]. apply in_flat_map. exists c. split; [done|by left].
  - rewrite Forall_forall in IH. destruct (IH c) with (p' := p') (n' := n')
      as (p & n & Hpn & -> & -> & Hn); [by apply list_elem_of_In|done|].
    exists p, n. split_and!; try done.
    cbn [descendants]. apply in_flat_map. exists c. split; [done|by right].
Qed.

Lemma noneMatches_removeWhere Q dead t :
  shapeOnly Q → noneMatches Q t → noneMatches Q (removeWhere dead t).
Proof.
  intros HQ Hfree p' n' Hin.
  apply descendants_removeWhere in Hin as (p & n & Hpn & -> & -> & _).
  rewrite (HQ _ _ p n) by apply shell_removeWhere. by apply Hfree.
Qed.

Lemma removeAll_removeWhere nodes t :
  removeAll nodes t = removeWhere (fun v => existsb (fun el => (v =? uidOf el)%nat) nodes) t.
Proof.
  unfold removeAll. revert t. induction nodes as [|el nodes IH]; intros t; simpl.
  - by rewrite removeWhere_none.
  - rewrite IH, removeNode_removeWhere, removeWhere_compose. done.
Qed.

(** After [forEach(el => el.remove())] over a list that holds every
    element satisfying a shape test, no element satisfies it. *)
Lemma noneMatches_removeAll Q nodes t :
  shapeOnly Q →
  (∀ p n, In (p, n) (descendants t) → Q p n = true → isElement n = true ∧ In n nodes) →
  noneMatches Q (removeAll nodes t).
Proof.
  intros HQ Hall p' n' Hin. rewrite removeAll_removeWhere in Hin.
  apply descendants_removeWhere in Hin as (p & n & Hpn & -> & -> & Hlive).
  rewrite (HQ _ _ p n) by apply shell_removeWhere.
  destruct (Q p n) eqn:Hq; [|done].
  destruct (Hall p n Hpn Hq) as [Hel Hn]. destruct n as [u tag attrs cs|]; [|done].
  simpl in Hlive. apply not_true_iff_false in Hlive. destruct Hlive.
  apply existsb_exists. exists (Element u tag attrs cs). split; [done|]. simpl.
  apply Nat.eqb_refl.
Qed.

Lemma shapeOnly_matchesAny sels : shapeOnly (matchesAny sels).
Proof.
  intros p n p' n' Hp Hn. unfold matchesAny.
  assert (∀ s a b, shell a = shell b → matchesSimple s a = matchesSimple s b) as Hs.
  { intros s [] [] [=]; by subst. }
  induction sels as [|sel sels IH]; [done|]. simpl. rewrite IH. f_equal.
  destruct sel; [by apply Hs|]. by rewrite (Hs _ n n'), (Hs _ p p').
Qed.

Lemma noneMatches_removeMatching sels t : noneMatches (matchesAny sels) (removeMatching sels t).
Proof.
  apply noneMatches_removeAll; [apply shapeOnly_matchesAny|].
  intros p n Hin Hq. split.
  - unfold matchesAny in Hq. apply existsb_exists in Hq as ([s|s1 s2] & _ & Hq);
      by destruct n.
  - unfold querySelectorAll. apply in_map_iff. exists (p, n). split; [done|].
    apply filter_In. by split.
Qed.

Lemma removalOf_refl t : removalOf t t.
Proof. exists (fun _ => false). by rewrite removeWhere_none. Qed.

Lemma removalOf_trans t1 t2 t3 : removalOf t1 t2 → removalOf t2 t3 → removalOf t1 t3.
Proof. intros [d1 ->] [d2 ->]. eexists. apply removeWhere_compose. Qed.

Lemma removalOf_removeNode u t : removalOf t (removeNode u t).
Proof. eexists. apply removeNode_removeWhere. Qed.

Lemma removalOf_removeAll nodes t : removalOf t (removeAll nodes t).
Proof. eexists. apply removeAll_removeWhere. Qed.

Lemma removalOf_removeInputBar browser t : removalOf t (removeInputBar browser t).
Proof.
  unfold removeInputBar. destruct (querySelector _ t); [|apply removalOf_refl].
  match goal with |- context [List.find ?f ?l] => destruct (List.find f l) end.
  - eapply removalOf_trans; [apply removalOf_removeNode|].
    destruct (querySelector _ _); [apply removalOf_removeNode|apply removalOf_refl].
  - destruct (querySelector _ _); [apply removalOf_removeNode|apply removalOf_refl].
Qed.

Lemma removalOf_removeEditable t el : removalOf t (removeEditable t el).
Proof.
  unfold removeEditable. destruct (ancestorsBelowRoot t el);
    [apply removalOf_removeNode|apply removalOf_refl].
Qed.

Lemma removalOf_editables els t : removalOf t (fold_left removeEditable els t).
Proof.
  revert t. induction els as [|el els IH]; intros t; simpl; [apply removalOf_refl|].
  eapply removalOf_trans; [apply removalOf_removeEditable|apply IH].
Qed.

Lemma removalOf_removeFooter t : removalOf t (removeFooter t).
Proof.
  unfold removeFooter. destruct (lastElementChild t); [|apply removalOf_refl].
  repeat case_match; first [apply removalOf_removeNode|apply removalOf_refl].
Qed.

Lemma noneMatches_removalOf Q t t' :
  shapeOnly Q → removalOf t t' → noneMatches Q t → noneMatches Q t'.
Proof. intros HQ [dead ->]. by apply noneMatches_removeWhere. Qed.

Create HintDb removal.

#[local] Hint Resolve removalOf_removeNode removalOf_removeAll
  removalOf_removeInputBar removalOf_editables removalOf_removeFooter : removal.

Lemma removalOf_removeMatching sels t : removalOf t (removeMatching sels t).
Proof. apply removalOf_removeAll. Qed.

#[local] Hint Resolve removalOf_removeMatching : removal.

Lemma shapeOnly_stickyElement : shapeOnly stickyElement.
Proof. intros p [] p' [] _ [=]; by subst. Qed.

Lemma noneMatches_sticky t :
  noneMatches stickyElement
    (removeAll (List.filter isSticky (querySelectorAll [Just Any] t)) t).
Proof.
  apply noneMatches_removeAll; [apply shapeOnly_stickyElement|].
  intros p n Hin Hq. apply andb_true_iff in Hq as [Hel Hsticky]. split; [done|].
  apply filter_In. split; [|done]. unfold querySelectorAll. apply in_map_iff.
  exists (p, n). split; [done|]. apply filter_In. split; [done|].
  by destruct n.
Qed.

Lemma noneMatches_app l1 l2 t :
  noneMatches (matchesAny l1) t → noneMatches (matchesAny l2) t →
  noneMatches (matchesAny (l1 ++ l2)) t.
Proof.
  intros H1 H2 p n Hin. unfold matchesAny. rewrite existsb_app.
  apply orb_false_iff. split; [by apply H1|by apply H2].
Qed.

Lemma noneMatches_query sels t :
  noneMatches (matchesAny sels) t → querySelectorAll sels t = [].
Proof.
  intros Hfree. unfold querySelectorAll, noneMatches in *.
  assert (List.filter (fun pn => matchesAny sels pn.1 pn.2) (descendants t) = []) as ->; [|done].
  induction (descendants t) as [|[p n] l IH] in Hfree |- *; [done|]. simpl.
  rewrite (Hfree p n) by by left. apply IH. intros p' n' Hin. apply Hfree. by right.
Qed.

Lemma noneMatches_sticky_query t :
  noneMatches stickyElement t →
  List.filter isSticky (querySelectorAll [Just Any] t) = [].
Proof.
  intros Hfree. unfold querySelectorAll, noneMatches in *.
  induction (descendants t) as [|[p n] l IH] in Hfree |- *; [done|].
  assert (List.filter isSticky
            (map snd (List.filter (fun pn => matchesAny [Just Any] pn.1 pn.2) l)) = [])
    as Hrest by (apply IH; intros p' n' Hin; apply Hfree; by right).
  simpl. specialize (Hfree p n (or_introl eq_refl)). unfold stickyElement in Hfree.
  destruct n as [u tag attrs cs|data]; [|done]. simpl in *. by rewrite Hfree.
Qed.

(** Peels the passes of the clean-up off the goal until the one that
    establishes it. *)
Ltac through_passes established shape :=
  unfold cleanUp; cbv zeta;
  repeat (first [ apply established
                | eapply noneMatches_removalOf;
                  [apply shape|solve [eauto with removal]|] ]).

Lemma cleanUp_is_removal browser clone : removalOf clone (cleanUp browser clone).
Proof.
  unfold cleanUp. cbv zeta.
  repeat (first [ apply removalOf_refl
                | eapply removalOf_trans; [|solve [eauto with removal]] ]).
Qed.

(** X17. The clean-up of the clone (lines 300-374) only removes. Whatever
    the page and the browser, the cleaned clone is the clone without the
    subtrees of some of its elements: the root stays, no element is added,
    moved or rewritten, and no text is altered. *)
Theorem cleanUp_only_removes (browser : Browser) (clone : Node) :
  ∃ dead, cleanUp browser clone = removeWhere dead clone.
Proof.
  destruct (cleanUp_is_removal browser clone) as [dead Hdead]. by exists dead.
Qed.

(** X18. The cleaned clone holds no input chrome (lines 325-363). Below
    its root there is no [textarea] and no [input], no element with a
    [placeholder] or [data-placeholder] attribute, none whose class
    contains one of the composer, input-bar or chat-input patterns, and
    none whose style attribute declares [position: sticky]: the later
    passes never bring back what an earlier one removed. *)
Theorem cleanUp_leaves_no_input_chrome (browser : Browser) (clone : Node) :
  querySelectorAll chromeSel (cleanUp browser clone) = [] ∧
  List.filter isSticky (querySelectorAll [Just Any] (cleanUp browser clone)) = [].
Proof.
  split.
  - apply noneMatches_query.
    change chromeSel with
      ([Just (Tag "textarea"); Just (Tag "input")] ++
       [Just (Has "placeholder")] ++ [Just (Has "data-placeholder")] ++
       [Just (Contains "class" "Composer"); Just (Contains "class" "composer")] ++
       [Just (Contains "class" "InputBar"); Just (Contains "class" "inputBar");
        Just (Contains "class" "input-bar")] ++
       [Just (Contains "class" "ChatInput"); Just (Contains "class" "chatInput");
        Just (Contains "class" "chat-input")]).
    repeat apply noneMatches_app;
      through_passes noneMatches_removeMatching shapeOnly_matchesAny.
  - apply noneMatches_sticky_query.
    through_passes noneMatches_sticky shapeOnly_stickyElement.
Qed.

(** ** Editable regions *)

Lemma uids_root n : uids n = (if isElement n then [uidOf n] else []) ++ uidsBelow n.
Proof. by destruct n. Qed.

Lemma uidsBelow_descendants u t :
  In u (uidsBelow t) ↔ ∃ p n, In (p, n) (descendants t) ∧ isElement n = true ∧ uidOf n = u.
Proof.
  induction t as [data|v tag attrs cs IH] using Node_children_ind.
  { split; [done|]. by intros (p & n & [] & _). }
  unfold uidsBelow. cbn [childrenOf descendants]. rewrite Forall_forall in IH.
  rewrite in_flat_map. split.
  - intros (c & Hc & Hu). rewrite uids_root in Hu. apply in_app_or in Hu as [Hu|Hu].
    + destruct c as [w ctag cattrs ccs|]; [|done]. destruct Hu as [<-|[]].
      exists (Element v tag attrs cs), (Element w ctag cattrs ccs). split; [|done].
      apply in_flat_map. eexists. split; [done|by left].
    + apply IH in Hu as (p & n & Hin & Hn); [|by apply list_elem_of_In].
      exists p, n. split; [|done]. apply in_flat_map. eexists. split; [done|by right].
  - intros (p & n & Hin & Hel & Hu). apply in_flat_map in Hin as (c & Hc & Hin).
    exists c. split; [done|]. rewrite uids_root. apply in_or_app.
    destruct Hin as [[= <- <-]|Hin].
    + left. rewrite Hel. by left.
    + right. apply IH; [by apply list_elem_of_In|]. by exists p, n.
Qed.

Lemma uids_removeWhere_sublists dead t :
  sublist (uids (removeWhere dead t)) (uids t) ∧
  sublist (uidsBelow (removeWhere dead t)) (uidsBelow t).
Proof.
  induction t as [data|v tag attrs cs IH] using Node_children_ind; [done|].
  assert (sublist (uidsBelow (removeWhere dead (Element v tag attrs cs)))
            (uidsBelow (Element v tag attrs cs))) as Hbelow.
  { unfold uidsBelow. simpl. induction IH as [|c cs [Hc _] _ IHcs]; [done|]. simpl.
    destruct (deadNode dead (removeWhere dead c)); simpl.
    - by apply sublist_inserts_l.
    - by apply sublist_app. }
  split; [|done]. by apply sublist_skip.
Qed.

Lemma uids_removeWhere_sublist dead t : sublist (uids (removeWhere dead t)) (uids t).
Proof. apply uids_removeWhere_sublists. Qed.

Lemma uidsBelow_removeWhere_sublist dead t :
  sublist (uidsBelow (removeWhere dead t)) (uidsBelow t).
Proof. apply uids_removeWhere_sublists. Qed.

Lemma In_sublist (l k : list nat) x : sublist l k → In x l → In x k.
Proof. intros Hsub Hin. apply list_elem_of_In. eapply elem_of_sublist; [|done]. by apply list_elem_of_In. Qed.

Lemma descendants_trans p a t x :
  In (p, a) (descendants t) → In x (descendants a) → In x (descendants t).
Proof.
  revert p a.
  induction t as [data|v tag attrs cs IH] using Node_children_ind; [done|].
  intros p a Hin Hx. cbn [descendants] in *. rewrite Forall_forall in IH.
  apply in_flat_map in Hin as (c & Hc & Hin). apply in_flat_map. exists c. split; [done|].
  right. destruct Hin as [[= <- <-]|Hin]; [done|].
  eapply IH; [by apply list_elem_of_In|done..].
Qed.

Lemma uids_descendant p a t : In (p, a) (descendants t) → incl (uids a) (uidsBelow t).
Proof.
  intros Hin u Hu. apply uidsBelow_descendants. rewrite uids_root in Hu.
  apply in_app_or in Hu as [Hu|Hu].
  - destruct a; [|done]. destruct Hu as [<-|[]]. by eexists _, _.
  - apply uidsBelow_descendants in Hu as (p' & n & Hin' & Hn).
    exists p', n. split; [|done]. by eapply descendants_trans.
Qed.

(** The search of the children in [ancestorsIn] returns what the search of
    one child returns. *)
Lemma ancestorsIn_children target above u tag attrs cs found :
  (u =? target)%nat = false →
  ancestorsIn target above (Element u tag attrs cs) = Some found →
  ∃ c, In c cs ∧ ancestorsIn target (Element u tag attrs cs :: above) c = Some found.
Proof.
  intros Hne. cbn [ancestorsIn]. rewrite Hne.
  generalize (Element u tag attrs cs :: above). intros path.
  induction cs as [|c cs IH]; [done|].
  destruct (ancestorsIn target path c) eqn:Hc.
  - intros [= <-]. exists c. split; [by left|done].
  - intros Hrest. destruct (IH Hrest) as (c' & Hc' & Hfound). exists c'. split; [by right|done].
Qed.

Lemma ancestorsIn_children_None target above u tag attrs cs :
  ancestorsIn target above (Element u tag attrs cs) = None →
  (u =? target)%nat = false ∧
  ∀ c, In c cs → ancestorsIn target (Element u tag attrs cs :: above) c = None.
Proof.
  cbn [ancestorsIn]. destruct (u =? target)%nat; [done|].
  generalize (Element u tag attrs cs :: above). intros path Hnone. split; [done|].
  induction cs as [|c cs IH]; [done|].
  destruct (ancestorsIn target path c) eqn:Hc; [done|].
  intros c' [<-|Hc']; [done|]. by apply IH.
Qed.

(** An element that [ancestorsIn] does not find is not in the tree. *)
Lemma ancestorsIn_None target n : ∀ above,
  ancestorsIn target above n = None → ¬ In target (uids n).
Proof.
  induction n as [data|v tag attrs cs IH] using Node_children_ind; [by intros above _ []|].
  intros above Hnone. apply ancestorsIn_children_None in Hnone as [Hne Hcs].
  rewrite Forall_forall in IH. intros [->|Hin].
  - by rewrite Nat.eqb_refl in Hne.
  - apply in_flat_map in Hin as (c & Hc & Hin).
    eapply IH; [by apply list_elem_of_In|by apply Hcs|done].
Qed.

(** What [ancestorsIn] finds: the elements between the target and [n],
    nearest first, then [n], then what was above [n]. Each of them is an
    element below [n] that contains the target. *)
Lemma ancestorsIn_Some target n : ∀ above found,
  ancestorsIn target above n = Some found →
  (uidOf n = target ∧ found = above) ∨
  (∃ inner, found = inner ++ n :: above ∧ In target (uidsBelow n) ∧
     ∀ a, In a inner →
       isElement a = true ∧ In target (uidsBelow a) ∧ ∃ p, In (p, a) (descendants n)).
Proof.
  induction n as [data|v tag attrs cs IH] using Node_children_ind; [by intros|].
  intros above found Hfound. destruct (v =? target)%nat eqn:Hv.
  { left. cbn [ancestorsIn] in Hfound. rewrite Hv in Hfound.
    apply Nat.eqb_eq in Hv. by injection Hfound as <-. }
  right. apply ancestorsIn_children in Hfound as (c & Hc & Hfound); [|done].
  rewrite Forall_forall in IH.
  assert (In (Element v tag attrs cs, c) (descendants (Element v tag attrs cs))) as Hchild.
  { cbn [descendants]. apply in_flat_map. exists c. split; [done|by left]. }
  destruct (IH c) with (above := Element v tag attrs cs :: above) (found := found)
    as [[Hu ->]|(inner & -> & Hbelow & Hinner)]; [by apply list_elem_of_In|done|..].
  - exists []. split; [done|]. split; [|done].
    apply uidsBelow_descendants. exists (Element v tag attrs cs), c. split; [done|].
    split; [|done]. by destruct c.
  - exists (inner ++ [c]). split; [by rewrite <- app_assoc|]. split.
    + eapply uids_descendant; [done|]. rewrite uids_root. apply in_or_app. by right.
    + intros a Ha. apply in_app_or in Ha as [Ha|[<-|[]]].
      * destruct (Hinner a Ha) as (Hel & Hin & p & Hp). split; [done|]. split; [done|].
        exists p. by eapply descendants_trans.
      * split; [by destruct c|]. split; [done|]. by eexists.
Qed.

Lemma NoDup_flat_map_same {A} (f : A → list nat) (l : list A) x y z :
  NoDup (flat_map f l) → In x l → In y l → In z (f x) → In z (f y) → x = y.
Proof.
  induction l as [|h l IH]; [done|]. simpl. rewrite NoDup_app.
  intros (_ & Hdisj & Hrest) [->|Hx] [->|Hy] Hzx Hzy; [done|..|by apply IH].
  - destruct (Hdisj z); [by apply list_elem_of_In|]. apply list_elem_of_In.
    apply in_flat_map. by exists y.
  - destruct (Hdisj z); [by apply list_elem_of_In|]. apply list_elem_of_In.
    apply in_flat_map. by exists x.
Qed.

Lemma NoDup_flat_map_part {A} (f : A → list nat) (l : list A) x :
  NoDup (flat_map f l) → In x l → NoDup (f x).
Proof.
  induction l as [|h l IH]; [done|]. simpl. rewrite NoDup_app.
  intros (Hh & _ & Hrest) [->|Hx]; [done|by apply IH].
Qed.

Lemma removeNode_gone u t : ¬ In u (uidsBelow (removeNode u t)).
Proof.
  intros Hin. apply uidsBelow_descendants in Hin as (p' & n' & Hin & Hel & Hu).
  rewrite removeNode_removeWhere in Hin.
  apply descendants_removeWhere in Hin as (p & n & _ & _ & -> & Hlive).
  destruct n; [|done]. simpl in *. subst. by rewrite Nat.eqb_refl in Hlive.
Qed.

(** Removing an element removes what it contains: an identity found inside
    it is found nowhere below the root afterwards. *)
Lemma removeNode_subtree target t : ∀ p a,
  NoDup (uids t) → In (p, a) (descendants t) → isElement a = true →
  In target (uids a) → ¬ In target (uidsBelow (removeNode (uidOf a) t)).
Proof.
  induction t as [data|v tag attrs cs IH] using Node_children_ind; [done|].
  intros p a Hnd Hin Hel Ht Hbad. rewrite Forall_forall in IH.
  cbn [uids] in Hnd. apply NoDup_cons in Hnd as [_ Hnd].
  cbn [descendants] in Hin. apply in_flat_map in Hin as (c0 & Hc0 & Hin).
  unfold uidsBelow in Hbad. cbn [removeNode childrenOf] in Hbad.
  apply in_flat_map in Hbad as (c' & Hc' & Hbad).
  apply filter_In in Hc' as [Hc' Hlive]. apply in_map_iff in Hc' as (c & <- & Hc).
  assert (In target (uids c)) as Htc.
  { eapply In_sublist; [|done]. rewrite removeNode_removeWhere.
    apply uids_removeWhere_sublist. }
  assert (In target (uids c0)) as Htc0.
  { destruct Hin as [[= <- <-]|Hin]; [done|].
    rewrite uids_root. apply in_or_app. right. by eapply uids_descendant. }
  assert (c = c0) as -> by by eapply (NoDup_flat_map_same uids cs).
  pose proof (NoDup_flat_map_part uids cs c0 Hnd Hc0) as Hnd0.
  destruct Hin as [[= <- <-]|Hin].
  - destruct c0; [|done]. simpl in Hlive. by rewrite Nat.eqb_refl in Hlive.
  - rewrite uids_root in Hbad. apply in_app_or in Hbad as [Hroot|Hbelow].
    + destruct c0 as [w ctag cattrs ccs|]; [|done]. destruct Hroot as [<-|[]].
      cbn [uids] in Hnd0. apply NoDup_cons in Hnd0 as [Hw _]. destruct Hw.
      apply list_elem_of_In. by eapply (uids_descendant p a (Element w ctag cattrs ccs)).
    + by eapply (IH c0); [by apply list_elem_of_In|..].
Qed.

Lemma last_default_or_In {A} (l : list A) d : List.last l d = d ∨ In (List.last l d) l.
Proof.
  induction l as [|x l IH]; [by left|]. destruct l as [|y l]; [right; by left|].
  destruct IH as [IH|IH]; [|right; by right].
  right. right. change (In (List.last (y :: l) d) (y :: l)).
  clear IH. revert y. induction l as [|z l IHl]; intros y; [by left|].
  right. apply IHl.
Qed.

Lemma In_take {A} (l : list A) n x : In x (take n l) → In x l.
Proof.
  revert n. induction l as [|y l IH]; intros [|n]; simpl; try done.
  intros [->|Hin]; [by left|right; by eapply IH].
Qed.

(** After the body of the loop over editable regions, the region is no
    longer below the root. *)
Lemma removeEditable_gone t el :
  NoDup (uids t) → ¬ In (uidOf el) (uidsBelow (removeEditable t el)).
Proof.
  intros Hnd. unfold removeEditable, ancestorsBelowRoot.
  destruct (ancestorsIn (uidOf el) [] t) as [found|] eqn:Hfound; simpl.
  - apply ancestorsIn_Some in Hfound as [[_ ->]|(inner & -> & _ & Hinner)].
    { apply removeNode_gone. }
    rewrite removelast_last.
    destruct (last_default_or_In (take 5 inner) el) as [->|Hin]; [apply removeNode_gone|].
    apply In_take in Hin. destruct (Hinner _ Hin) as (Hel & Hin' & p & Hp).
    eapply removeNode_subtree; [done..|]. rewrite uids_root. apply in_or_app. by right.
  - apply ancestorsIn_None in Hfound. intros Hin. apply Hfound.
    rewrite uids_root. apply in_or_app. by right.
Qed.

Lemma NoDup_removalOf t t' : removalOf t t' → NoDup (uids t) → NoDup (uids t').
Proof.
  intros [dead ->] Hnd. eapply sublist_NoDup; [done|apply uids_removeWhere_sublist].
Qed.

Lemma editables_gone els : ∀ t el,
  NoDup (uids t) → In el els →
  ¬ In (uidOf el) (uidsBelow (fold_left removeEditable els t)).
Proof.
  induction els as [|x els IH]; [done|]. intros t el Hnd [->|Hin]; simpl.
  - destruct (removalOf_editables els (removeEditable t el)) as [dead ->].
    intros Hbad. eapply removeEditable_gone; [done|].
    eapply In_sublist; [apply uidsBelow_removeWhere_sublist|done].
  - apply IH; [|done]. eapply NoDup_removalOf; [apply removalOf_removeEditable|done].
Qed.

Lemma noneMatches_editables t :
  NoDup (uids t) →
  noneMatches (matchesAny [Just (Has "contenteditable")])
    (fold_left removeEditable (querySelectorAll [Just (Has "contenteditable")] t) t).
Proof.
  intros Hnd p' n' Hin.
  destruct (matchesAny _ p' n') eqn:Hmatch; [|done]. exfalso.
  destruct (removalOf_editables (querySelectorAll [Just (Has "contenteditable")] t) t)
    as [dead Hdead].
  pose proof Hin as Hin'. rewrite Hdead in Hin'.
  apply descendants_removeWhere in Hin' as (p & n & Hpn & -> & -> & _).
  rewrite (shapeOnly_matchesAny _ _ _ p n) in Hmatch by apply shell_removeWhere.
  eapply (editables_gone (querySelectorAll [Just (Has "contenteditable")] t) t n Hnd).
  - unfold querySelectorAll. apply in_map_iff. exists (p, n). split; [done|].
    apply filter_In. by split.
  - apply uidsBelow_descendants. eexists _, _. split; [done|].
    by destruct n.
Qed.

(** For a clone whose elements are distinct objects, the clean-up leaves
    no element with a [contenteditable] attribute below the root. *)
Lemma cleanUp_no_editable (browser : Browser) (clone : Node) :
  NoDup (uids clone) →
  querySelectorAll [Just (Has "contenteditable")] (cleanUp browser clone) = [].
Proof.
  intros Hnd. apply noneMatches_query.
  through_passes noneMatches_editables shapeOnly_matchesAny.
  repeat (eapply NoDup_removalOf; [solve [eauto with removal]|]). done.
Qed.

(** *** The substitutions keep the elements distinct *)

Lemma freshUid_bound n : ∀ u, In u (uids n) → (u < freshUid n)%nat.
Proof.
  induction n as [data|v tag attrs cs IH] using Node_children_ind; [done|].
  intros u [<-|Hin]; cbn [freshUid].
  - clear IH. induction cs as [|c cs IHcs]; simpl; lia.
  - cbn [uids] in *. induction IH as [|c cs Hc _ IHcs]; [done|]. simpl in *.
    apply in_app_or in Hin as [Hin|Hin]; [specialize (Hc _ Hin)|specialize (IHcs Hin)]; lia.
Qed.

Lemma uids_replaceNode_root target new n :
  uids (replaceNode target new n) =
  (if isElement n then [uidOf n] else []) ++ uidsBelow (replaceNode target new n).
Proof. by destruct n. Qed.

(** Replacing an element by a new one with a fresh identity: the new
    identity occurs as often as the replaced one did, every other identity
    at most as often as before. *)
Lemma replaceNode_count target new fresh n :
  uids new = [fresh] → ¬ In fresh (uids n) →
  (count_occ Nat.eq_dec (uidsBelow (replaceNode target new n)) fresh
     ≤ count_occ Nat.eq_dec (uidsBelow n) target)%nat ∧
  ∀ x, x ≠ fresh →
    (count_occ Nat.eq_dec (uidsBelow (replaceNode target new n)) x
       ≤ count_occ Nat.eq_dec (uidsBelow n) x)%nat.
Proof.
  intros Hnew.
  induction n as [data|v tag attrs cs IH] using Node_children_ind; [done|].
  intros Hfresh. unfold uidsBelow. cbn [replaceNode childrenOf].
  assert (¬ In fresh (flat_map uids cs)) as Hcs by (intros Hin; apply Hfresh; by right).
  clear Hfresh. induction IH as [|c cs Hc _ IHcs]; [done|].
  cbn [map flat_map] in *.
  assert (¬ In fresh (uids c)) as Hfc by (intros Hin; apply Hcs, in_or_app; by left).
  assert (¬ In fresh (flat_map uids cs)) as Hfcs by (intros Hin; apply Hcs, in_or_app; by right).
  destruct (IHcs Hfcs) as [IH1 IH2]. destruct (Hc Hfc) as [Hc1 Hc2].
  rewrite !count_occ_app. split.
  - destruct (hasUid target c) eqn:Hhit.
    + rewrite Hnew. destruct c as [w ? ? ?|]; [|done]. apply Nat.eqb_eq in Hhit as ->.
      simpl. repeat destruct (Nat.eq_dec _ _); try done; lia.
    + rewrite uids_replaceNode_root, (uids_root c), !count_occ_app.
      assert (count_occ Nat.eq_dec (if isElement c then [uidOf c] else []) fresh = 0%nat) as ->.
      { destruct c as [w ? ? ?|]; [|done]. simpl. destruct (Nat.eq_dec w fresh) as [->|]; [|done].
        destruct Hfc. by left. }
      lia.
  - intros x Hx. specialize (IH2 x Hx). specialize (Hc2 x Hx).
    destruct (hasUid target c) eqn:Hhit.
    + rewrite Hnew, !count_occ_app. cbn [count_occ].
      destruct (Nat.eq_dec fresh x); [by subst|]. lia.
    + rewrite uids_replaceNode_root, (uids_root c), !count_occ_app. lia.
Qed.

Lemma NoDup_replaceNode target new n :
  uids new = [freshUid n] → NoDup (uids n) → NoDup (uids (replaceNode target new n)).
Proof.
  intros Hnew Hnd.
  assert (¬ In (freshUid n) (uids n)) as Hfresh
    by (intros Hin; apply freshUid_bound in Hin; lia).
  destruct (replaceNode_count target new (freshUid n) n Hnew Hfresh) as [H1 H2].
  apply NoDup_ListNoDup, (NoDup_count_occ Nat.eq_dec). intros x.
  apply NoDup_ListNoDup in Hnd. rewrite (NoDup_count_occ Nat.eq_dec) in Hnd.
  rewrite uids_replaceNode_root, count_occ_app.
  destruct (Nat.eq_dec x (freshUid n)) as [->|Hx].
  - specialize (Hnd target). rewrite uids_root, count_occ_app in Hnd.
    assert (count_occ Nat.eq_dec (if isElement n then [uidOf n] else []) (freshUid n) = 0%nat)
      as ->; [|lia].
    destruct n as [w ? ? ?|]; [|done]. simpl.
    destruct (Nat.eq_dec w _) as [Hw|]; [|done]. destruct Hfresh. left. done.
  - specialize (Hnd x). specialize (H2 x Hx). rewrite uids_root, count_occ_app in Hnd. lia.
Qed.

Lemma NoDup_removeAll nodes t : NoDup (uids t) → NoDup (uids (removeAll nodes t)).
Proof. apply NoDup_removalOf, removalOf_removeAll. Qed.

Lemma uids_makePre browser u text : uids (makePre browser u text) = [u].
Proof. unfold makePre. by destruct (nonEmpty text). Qed.

Lemma NoDup_substituteTerminal browser terminals clone item :
  NoDup (uids clone) → NoDup (uids (substituteTerminal browser terminals clone item)).
Proof.
  intros Hnd. unfold substituteTerminal. repeat case_match; try done.
  apply (NoDup_removeAll _ (replaceNode _ _ _)).
  apply NoDup_replaceNode; [apply uids_makePre|done].
Qed.

Lemma NoDup_substituteCanvas canvases clone item :
  NoDup (uids clone) → NoDup (uids (substituteCanvas canvases clone item)).
Proof.
  intros Hnd. unfold substituteCanvas. case_match; [|done]. by apply NoDup_replaceNode.
Qed.

Lemma NoDup_fold {A} (f : Node → A → Node) (items : list A) :
  (∀ t x, NoDup (uids t) → NoDup (uids (f t x))) →
  ∀ t, NoDup (uids t) → NoDup (uids (fold_left f items t)).
Proof. intros Hf. induction items as [|x items IH]; intros t Hnd; simpl; auto. Qed.

(** X19. The markup of a snapshot holds no editable region. For a chat
    root whose elements are distinct objects, no element with a
    [contenteditable] attribute, whatever its value, is left below the root
    of the markup: each one is removed with its container or was already
    gone with the container of an earlier one, and the substitutions for
    terminals and canvases before the clean-up bring in none. *)
Theorem markup_has_no_editable (browser : Browser) (cascade : Node) :
  NoDup (uids cascade) →
  querySelectorAll [Just (Has "contenteditable")] (captureMarkup browser cascade) = [].
Proof.
  intros Hnd. unfold captureMarkup. cbv zeta. apply cleanUp_no_editable.
  apply NoDup_fold; [apply NoDup_substituteCanvas|].
  apply NoDup_fold; [apply NoDup_substituteTerminal|]. done.
Qed.

Lemma markup_has_no_editable_witness :
  NoDup (uids composerDoc) ∧
  querySelectorAll [Just (Has "contenteditable")] (captureMarkup plainBrowser composerDoc) = [].
Proof.
  assert (NoDup (uids composerDoc)) as Hnd
    by (apply (bool_decide_unpack _); vm_compute; exact I).
  split; [done|]. by apply (markup_has_no_editable plainBrowser composerDoc).
Defined.

(** ** The chat routes *)

(** X20. A chat update that the server pushes (the callback of the start
    route and [broadcast] in [http-server.mjs]) carries nothing of the
    chat. Whatever the captured chat, every client whose socket is open,
    and no other, receives one message, in the order of the client set,
    whose data holds the timestamp alone: the callback reads
    [messageCount] and [messages], which the captured object does not
    have. *)
Theorem chat_update_carries_no_chat (clients : list Client) (chat : Chat)
  (timestamp ts : string) :
  chatUpdate clients (chatObject chat) timestamp ts =
  map (fun client =>
         (clientId client,
          JsonObject [("event", JsonString "chat_update");
                      ("data", JsonObject [("timestamp", JsonString timestamp)]);
                      ("ts", JsonString ts)]))
      (List.filter isOpen clients).
Proof. reflexivity. Qed.

(** ** Canvases outside terminals *)



Lemma shell_canvas a b :
  shell a = shell b →
  uidOf a = uidOf b ∧ matchesSimple (Tag "canvas") a = matchesSimple (Tag "canvas") b.
Proof. destruct a, b; intros [=]; by subst. Qed.



Lemma canvasGone_removeWhere u dead t : canvasGone u t → canvasGone u (removeWhere dead t).
Proof.
  intros Hgone p' n' Hin Hu.
  apply descendants_removeWhere in Hin as (p & n & Hpn & -> & -> & _).
  destruct (shell_canvas _ _ (shell_removeWhere dead n)) as [Huid ->].
  apply (Hgone p n Hpn). congruence.
Qed.












(** The first hypothesis of the theorem above cannot be dropped: the
    indexes of the replacement list count the canvases of the live chat
    root, those it is applied to count the canvases of the clone after the
    terminals have lost theirs. Behind a terminal that was rendered as
    text, the chart keeps its canvas. *)
Example chart_behind_terminal_kept :
  canvasReplacements chartBrowser mixedDoc = [(1%nat, chartUrl)] ∧
  querySelectorAll [Just (Tag "canvas")] (captureMarkup chartBrowser mixedDoc)
  = [Element 12 "canvas" [] []].
Proof. split; vm_compute; reflexivity. Qed.

(** ** Terminals *)







(** ** A consumer that throws [null] *)

(** When the consumer throws [null] from the initial [poll], the handler
    of [startChatStream] itself throws on [e.message]: the call is
    rejected, no further target is tried, the session stays in
    [connection] with its socket open and without a timer, and
    [stopChatStream] releases it. *)
Example start_rejected_on_null_throw :
  let r := startChatStream liveNet (Some cbThrowingNull) initial in
  r.2.1 = Thrown ∧ success r.2.1 = false ∧
  (∃ cdp, connection r.1 = Some cdp ∧ ws cdp = 0%nat) ∧
  pollInterval r.1 = None ∧ isStreaming r.1 = false ∧
  openSockets r.1 = {[0%nat]} ∧ activeTimers r.1 = ∅ ∧
  openSockets (stopChatStream r.1) = ∅.
Proof.
  cbv zeta. split_and!;
    first [ vm_compute; reflexivity
          | eexists; split; vm_compute; reflexivity
          | apply (bool_decide_unpack _); vm_compute; exact I ].
Qed.
